(** * SunPatch: the orientation controller and the ambient lighting state

    A shallow embedding of [src/App.jsx]: the sun-direction update of
    [SolarPanelModel], its per-frame callback (demo oscillation and
    sun tracking) and the lighting update of [App], together with the
    [Math] built-ins and the three.js operations ([MathUtils],
    [Vector3], [Quaternion]) those closures call.

    JavaScript numbers are modelled by [num]: a real number, [NaN],
    or one of the two infinities.  Arithmetic on finite values is exact
    real arithmetic (rounding, overflow and the sign of zero are not
    modelled); the non-finite values follow IEEE 754. *)

From Stdlib Require Import Reals Lra Lia Psatz Bool String List.

Open Scope R_scope.

(** ** JavaScript numbers *)

Inductive num : Type :=
| Fin (r : R)
| NaN
| PInf
| NInf.

Coercion Fin : R >-> num.

Declare Scope num_scope.
Delimit Scope num_scope with num.
Bind Scope num_scope with num.

Definition Rltb (a b : R) : bool := if Rlt_dec a b then true else false.
Definition Rleb (a b : R) : bool := if Rle_dec a b then true else false.
Definition Reqb (a b : R) : bool := if Req_dec_T a b then true else false.

Definition isFinite (a : num) : bool :=
  match a with Fin _ => true | _ => false end.

Definition jneg (a : num) : num :=
  match a with
  | Fin r => Fin (- r)
  | NaN => NaN
  | PInf => NInf
  | NInf => PInf
  end.

Definition jadd (a b : num) : num :=
  match a, b with
  | Fin r, Fin s => Fin (r + s)
  | NaN, _ => NaN
  | _, NaN => NaN
  | PInf, NInf => NaN
  | NInf, PInf => NaN
  | PInf, _ => PInf
  | _, PInf => PInf
  | NInf, _ => NInf
  | _, NInf => NInf
  end.

Definition jsub (a b : num) : num := jadd a (jneg b).

(** An infinity times a finite factor: the sign follows the factor, and
    a zero factor gives [NaN]. *)
Definition scale_inf (i : num) (r : R) : num :=
  if Reqb r 0 then NaN else if Rltb 0 r then i else jneg i.

Definition jmul (a b : num) : num :=
  match a, b with
  | Fin r, Fin s => Fin (r * s)
  | NaN, _ => NaN
  | _, NaN => NaN
  | Fin r, i => scale_inf i r
  | i, Fin s => scale_inf i s
  | PInf, PInf => PInf
  | NInf, NInf => PInf
  | PInf, NInf => NInf
  | NInf, PInf => NInf
  end.

Definition jdiv (a b : num) : num :=
  match a, b with
  | Fin r, Fin s =>
      if Reqb s 0
      then (if Reqb r 0 then NaN else if Rltb 0 r then PInf else NInf)
      else Fin (r / s)
  | NaN, _ => NaN
  | _, NaN => NaN
  | Fin _, _ => Fin 0
  | i, Fin s => if Rleb 0 s then i else jneg i
  | _, _ => NaN
  end.

Definition jlt (a b : num) : bool :=
  match a, b with
  | Fin r, Fin s => Rltb r s
  | NaN, _ => false
  | _, NaN => false
  | _, NInf => false
  | PInf, _ => false
  | _, _ => true
  end.

Definition jle (a b : num) : bool :=
  match a, b with
  | Fin r, Fin s => Rleb r s
  | NaN, _ => false
  | _, NaN => false
  | NInf, _ => true
  | _, PInf => true
  | _, _ => false
  end.

(** [a === b] on numbers. *)
Definition jeq (a b : num) : bool :=
  match a, b with
  | Fin r, Fin s => Reqb r s
  | PInf, PInf => true
  | NInf, NInf => true
  | _, _ => false
  end.

(** [a || b] on numbers: [0] and [NaN] are falsy. *)
Definition jor (a b : num) : num :=
  match a with
  | Fin r => if Reqb r 0 then b else a
  | NaN => b
  | _ => a
  end.

Infix "+" := jadd : num_scope.
Infix "-" := jsub : num_scope.
Infix "*" := jmul : num_scope.
Infix "/" := jdiv : num_scope.
Notation "- a" := (jneg a) : num_scope.
Infix "<?" := jlt (at level 70) : num_scope.
Infix "<=?" := jle (at level 70) : num_scope.
Infix "===" := jeq (at level 70) : num_scope.
Infix "||" := jor : num_scope.

(** ** The [Math] built-ins used by the source *)

Module Math.

Definition PI : num := Fin Rtrigo1.PI.

Definition sin (a : num) : num :=
  match a with Fin r => Fin (Rtrigo_def.sin r) | _ => NaN end.

Definition cos (a : num) : num :=
  match a with Fin r => Fin (Rtrigo_def.cos r) | _ => NaN end.

Definition sqrt (a : num) : num :=
  match a with
  | Fin r => if Rltb r 0 then NaN else Fin (R_sqrt.sqrt r)
  | PInf => PInf
  | _ => NaN
  end.

Definition abs (a : num) : num :=
  match a with
  | Fin r => Fin (Rabs r)
  | NaN => NaN
  | _ => PInf
  end.

Definition acos (a : num) : num :=
  match a with
  | Fin r => if Rltb r (-1) || Rltb 1 r then NaN else Fin (Ratan.acos r)
  | _ => NaN
  end.

Definition min (a b : num) : num :=
  match a, b with
  | NaN, _ => NaN
  | _, NaN => NaN
  | _, _ => if jlt b a then b else a
  end.

Definition max (a b : num) : num :=
  match a, b with
  | NaN, _ => NaN
  | _, NaN => NaN
  | _, _ => if jlt a b then b else a
  end.

Definition hypot (a b : num) : num :=
  match a, b with
  | Fin r, Fin s => Fin (R_sqrt.sqrt (r * r + s * s))
  | PInf, _ => PInf
  | NInf, _ => PInf
  | _, PInf => PInf
  | _, NInf => PInf
  | _, _ => NaN
  end.

(** The angle of the point [(x, y)] on real arguments. *)
Definition Ratan2 (y x : R) : R :=
  if Rltb 0 x then atan (y / x)
  else if Rltb x 0 then
    (if Rleb 0 y then atan (y / x) + Rtrigo1.PI else atan (y / x) - Rtrigo1.PI)
  else if Rltb 0 y then Rtrigo1.PI / 2
  else if Rltb y 0 then - (Rtrigo1.PI / 2)
  else 0.

Definition atan2 (y x : num) : num :=
  match y, x with
  | Fin r, Fin s => Fin (Ratan2 r s)
  | NaN, _ => NaN
  | _, NaN => NaN
  | Fin r, PInf => Fin 0
  | Fin r, NInf => if Rleb 0 r then Fin Rtrigo1.PI else Fin (- Rtrigo1.PI)
  | PInf, Fin _ => Fin (Rtrigo1.PI / 2)
  | NInf, Fin _ => Fin (- (Rtrigo1.PI / 2))
  | PInf, PInf => Fin (Rtrigo1.PI / 4)
  | NInf, PInf => Fin (- (Rtrigo1.PI / 4))
  | PInf, NInf => Fin (3 * Rtrigo1.PI / 4)
  | NInf, NInf => Fin (- (3 * Rtrigo1.PI / 4))
  end.

(** The quotient of sine and cosine; it is infinite where the cosine
    vanishes, which no double argument hits exactly. *)
Definition tan (a : num) : num := jdiv (sin a) (cos a).

End Math.

(** [Number.EPSILON] is 2^-52. *)
Definition Number_EPSILON : num := Fin (/ 2 ^ 52).

Local Open Scope num_scope.

(** ** three.js [MathUtils] *)

Module MathUtils.

Definition DEG2RAD : num := Math.PI / 180.

Definition degToRad (degrees : num) : num := degrees * DEG2RAD.

Definition clamp (value min max : num) : num :=
  Math.max min (Math.min max value).

End MathUtils.

(** ** three.js [Vector3] *)

Module Vector3.

Record t : Type := mk { x : num; y : num; z : num }.

Definition length (v : t) : num :=
  Math.sqrt (x v * x v + y v * y v + z v * z v).

Definition multiplyScalar (v : t) (scalar : num) : t :=
  mk (x v * scalar) (y v * scalar) (z v * scalar).

Definition divideScalar (v : t) (scalar : num) : t :=
  multiplyScalar v (1 / scalar).

Definition normalize (v : t) : t :=
  divideScalar v (length v || 1).

Definition add (a v : t) : t := mk (x a + x v) (y a + y v) (z a + z v).

Definition sub (a v : t) : t := mk (x a - x v) (y a - y v) (z a - z v).

(** [new Vector3().setScalar(s)] *)
Definition setScalar (s : num) : t := mk s s s.

End Vector3.

(** ** three.js [Box3] *)

Module Box3.

Record t : Type := mk { min : Vector3.t; max : Vector3.t }.

Definition isEmpty (b : t) : bool :=
  orb (Vector3.x (max b) <? Vector3.x (min b))
    (orb (Vector3.y (max b) <? Vector3.y (min b))
         (Vector3.z (max b) <? Vector3.z (min b))).

Definition getCenter (b : t) : Vector3.t :=
  if isEmpty b then Vector3.mk 0 0 0
  else Vector3.multiplyScalar (Vector3.add (min b) (max b)) (5 / 10)%R.

Definition getSize (b : t) : Vector3.t :=
  if isEmpty b then Vector3.mk 0 0 0
  else Vector3.sub (max b) (min b).

End Box3.

(** ** three.js [Euler] and [Quaternion]

    The methods follow three.js's [math/Quaternion.js]; [slerp] is the
    form that falls back to a normalised linear interpolation when the
    squared sine of the half angle is at most [Number.EPSILON]. *)

Module Euler.

(** Both call sites build the Euler angles with the order ["XYZ"]. *)
Record t : Type := mk { x : num; y : num; z : num }.

End Euler.

Module Quaternion.

Record t : Type := mk { _x : num; _y : num; _z : num; _w : num }.

(** [new THREE.Quaternion()] *)
Definition identity : t := mk 0 0 0 1.

(** [setFromEuler], case ['XYZ']. *)
Definition setFromEuler (euler : Euler.t) : t :=
  let c1 := Math.cos (Euler.x euler / 2) in
  let c2 := Math.cos (Euler.y euler / 2) in
  let c3 := Math.cos (Euler.z euler / 2) in
  let s1 := Math.sin (Euler.x euler / 2) in
  let s2 := Math.sin (Euler.y euler / 2) in
  let s3 := Math.sin (Euler.z euler / 2) in
  mk (s1 * c2 * c3 + c1 * s2 * s3)
     (c1 * s2 * c3 - s1 * c2 * s3)
     (c1 * c2 * s3 + s1 * s2 * c3)
     (c1 * c2 * c3 - s1 * s2 * s3).

(** [a.multiply(b)], that is [multiplyQuaternions(a, b)]. *)
Definition multiply (a b : t) : t :=
  let qax := _x a in let qay := _y a in let qaz := _z a in let qaw := _w a in
  let qbx := _x b in let qby := _y b in let qbz := _z b in let qbw := _w b in
  mk (qax * qbw + qaw * qbx + qay * qbz - qaz * qby)
     (qay * qbw + qaw * qby + qaz * qbx - qax * qbz)
     (qaz * qbw + qaw * qbz + qax * qby - qay * qbx)
     (qaw * qbw - qax * qbx - qay * qby - qaz * qbz).

Definition dot (a v : t) : num :=
  _x a * _x v + _y a * _y v + _z a * _z v + _w a * _w v.

Definition length (a : t) : num :=
  Math.sqrt (_x a * _x a + _y a * _y a + _z a * _z a + _w a * _w a).

Definition normalize (a : t) : t :=
  let l := length a in
  if l === 0 then mk 0 0 0 1
  else
    let l := 1 / l in
    mk (_x a * l) (_y a * l) (_z a * l) (_w a * l).

Definition angleTo (a q : t) : num :=
  2 * Math.acos (Math.abs (MathUtils.clamp (dot a q) (-1) 1)).

Definition slerp (a qb : t) (t0 : num) : t :=
  if t0 === 0 then a
  else if t0 === 1 then qb
  else
    let x := _x a in let y := _y a in let z := _z a in let w := _w a in
    let cosHalfTheta := w * _w qb + x * _x qb + y * _y qb + z * _z qb in
    let neg := cosHalfTheta <? 0 in
    let this := if neg then mk (- _x qb) (- _y qb) (- _z qb) (- _w qb) else qb in
    let cosHalfTheta := if neg then - cosHalfTheta else cosHalfTheta in
    if 1 <=? cosHalfTheta then a
    else
      let sqrSinHalfTheta := 1 - cosHalfTheta * cosHalfTheta in
      if sqrSinHalfTheta <=? Number_EPSILON then
        let s := 1 - t0 in
        normalize (mk (s * x + t0 * _x this) (s * y + t0 * _y this)
                      (s * z + t0 * _z this) (s * w + t0 * _w this))
      else
        let sinHalfTheta := Math.sqrt sqrSinHalfTheta in
        let halfTheta := Math.atan2 sinHalfTheta cosHalfTheta in
        let ratioA := Math.sin ((1 - t0) * halfTheta) / sinHalfTheta in
        let ratioB := Math.sin (t0 * halfTheta) / sinHalfTheta in
        mk (x * ratioA + _x this * ratioB) (y * ratioA + _y this * ratioB)
           (z * ratioA + _z this * ratioB) (w * ratioA + _w this * ratioB).

Definition rotateTowards (a q : t) (step : num) : t :=
  let angle := angleTo a q in
  if angle === 0 then a
  else
    let t0 := Math.min 1 (step / angle) in
    slerp a q t0.

End Quaternion.

(** ** The sun-position source

    [SunCalc.getPosition] is an external collaborator; the model takes
    the pair of angles it returns as an input. *)

Record SunAngles : Type := { azimuth : num; altitude : num }.

(** ** [SolarPanelModel] *)

Inductive Mode : Type := sun | spin.

Module SolarPanelModel.

(** The refs of the component.  [panelRef] holds the quaternion of the
    tracked object once the model is mounted. *)
Record refs : Type := mkRefs {
  panelRef : option Quaternion.t;
  baseQuat : Quaternion.t;
  sunDir : Vector3.t
}.

Definition initial : refs :=
  mkRefs None Quaternion.identity (Vector3.mk 0 1 0).

(** The mount effect: [panelRef] is set to the loaded object, whose
    quaternion [q] is copied into [baseQuat]. *)
Definition mount (st : refs) (q : Quaternion.t) : refs :=
  mkRefs (Some q) q (sunDir st).

Record Limits : Type := {
  yawMin : num; yawMax : num; pitchMin : num; pitchMax : num
}.

Definition LIMITS : Limits := {|
  yawMin := MathUtils.degToRad (-170);
  yawMax := MathUtils.degToRad 170;
  pitchMin := MathUtils.degToRad (-5);
  pitchMax := MathUtils.degToRad 65
|}.

(** The direction computed by [update] before it is stored. *)
Definition evaluateSunDirection (pos : SunAngles) : Vector3.t :=
  let x := Math.sin (azimuth pos) * Math.cos (altitude pos) in
  let y := Math.sin (altitude pos) in
  let z := Math.cos (azimuth pos) * Math.cos (altitude pos) in
  Vector3.normalize (Vector3.mk x y z).

Definition update (st : refs) (pos : SunAngles) : refs :=
  mkRefs (panelRef st) (baseQuat st) (evaluateSunDirection pos).

(** *** The spin branch of the frame callback *)

Definition T : num := 8.
Definition w : num := (Math.PI * 2) / T.
Definition pitchDegMin : num := 8.
Definition pitchDegMax : num := 55.

Definition spinPitch (t : num) : num :=
  let s := (Math.sin (t * w) + 1) / 2 in
  MathUtils.degToRad (pitchDegMin + (pitchDegMax - pitchDegMin) * s).

Definition spinYaw (t : num) : num :=
  MathUtils.degToRad (Math.sin (t * w * (35 / 100)%R) * 30).

(** *** The tracking branch of the frame callback *)

Definition yawTarget (dir : Vector3.t) : num :=
  Math.atan2 (Vector3.x dir) (Vector3.z dir).

Definition pitchTarget (dir : Vector3.t) : num :=
  Math.atan2 (Vector3.y dir) (Math.hypot (Vector3.x dir) (Vector3.z dir)).

Definition isNight (dir : Vector3.t) : bool := Vector3.y dir <? 0.

Definition trackYaw (dir : Vector3.t) : num :=
  MathUtils.clamp (yawTarget dir) (yawMin LIMITS) (yawMax LIMITS).

Definition trackPitch (dir : Vector3.t) : num :=
  if isNight dir
  then MathUtils.clamp (MathUtils.degToRad 5) (pitchMin LIMITS) (pitchMax LIMITS)
  else MathUtils.clamp (pitchTarget dir) (pitchMin LIMITS) (pitchMax LIMITS).

(** The slew limit passed to [rotateTowards]. *)
Definition slewStep : num := (2 / 100)%R.

(** One invocation of the [useFrame] callback; [t] is
    [state.clock.getElapsedTime()]. *)
Definition useFrame (mode : Mode) (st : refs) (t : num) : refs :=
  match panelRef st with
  | None => st
  | Some current =>
      match mode with
      | spin =>
          let pitch := spinPitch t in
          let yaw := spinYaw t in
          let qTilt := Quaternion.setFromEuler (Euler.mk pitch yaw 0) in
          let qFinal := Quaternion.multiply (baseQuat st) qTilt in
          mkRefs (Some qFinal) (baseQuat st) (sunDir st)
      | sun =>
          let dir := sunDir st in
          let yaw := trackYaw dir in
          let pitch := trackPitch dir in
          let qDelta := Quaternion.setFromEuler (Euler.mk pitch yaw 0) in
          let qFinal := Quaternion.multiply (baseQuat st) qDelta in
          mkRefs (Some (Quaternion.rotateTowards current qFinal slewStep))
                 (baseQuat st) (sunDir st)
      end
  end.

End SolarPanelModel.

(** ** [App]: the lighting state *)

Module App.

Record Lighting : Type := mkLighting {
  skyPos : Vector3.t;
  bgColor : string;
  envPreset : string;
  sunLightIntensity : num;
  hemiIntensity : num
}.

(** The values of the [useState] hooks before the first update. *)
Definition initial : Lighting :=
  mkLighting (Vector3.mk 10 8 (-6)) "#0b0f1a" "sunset" (18 / 10)%R (35 / 100)%R.

Definition isDay (pos : SunAngles) : bool := (5 / 100)%R <? altitude pos.

Definition update (pos : SunAngles) : Lighting :=
  let r : num := 100 in
  let x := Math.sin (azimuth pos) * Math.cos (altitude pos) * r in
  let y := Math.sin (altitude pos) * r in
  let z := Math.cos (azimuth pos) * Math.cos (altitude pos) * r in
  if isDay pos
  then mkLighting (Vector3.mk x y z) "#b8d0ff" "sunset" (18 / 10)%R (35 / 100)%R
  else mkLighting (Vector3.mk x y z) "#05070d" "night" (5 / 10)%R (15 / 100)%R.

(** The click handler of the mode button:
    [setMode(mode === "sun" ? "spin" : "sun")]. *)
Definition toggleMode (mode : Mode) : Mode :=
  match mode with sun => spin | spin => sun end.

End App.

(** ** The scene graph: objects, materials and the helpers that style,
    place and frame the loaded model *)

(** A texture is identified by a number; its pixels are not modelled. *)
Definition Texture : Type := nat.

Inductive MaterialKind : Type :=
| LoadedMaterial
| MeshPhysicalMaterial
| MeshStandardMaterial.

(** A material: its constructor and the parameters the source passes
    to it; a parameter that is not passed is [None]. *)
Record Material : Type := mkMaterial {
  kind : MaterialKind;
  color : option string;
  metalness : option num;
  roughness : option num;
  map : option Texture;
  bumpMap : option Texture;
  bumpScale : option num;
  envMapIntensity : option num;
  clearcoat : option num;
  clearcoatRoughness : option num
}.

#[local] Unset Elimination Schemes.

Inductive Object3D : Type := mkObject {
  name : string;
  isMesh : bool;
  material : Material;
  castShadow : bool;
  receiveShadow : bool;
  position : Vector3.t;
  scale : Vector3.t;
  children : list Object3D
}.

#[local] Set Elimination Schemes.

(** [String.prototype.toLowerCase] on ASCII names. *)
Definition lowerChar (c : Ascii.ascii) : Ascii.ascii :=
  let n := Ascii.nat_of_ascii c in
  if andb (Nat.leb 65 n) (Nat.leb n 90) then Ascii.ascii_of_nat (n + 32) else c.

Fixpoint toLowerCase (s : string) : string :=
  match s with
  | EmptyString => EmptyString
  | String c rest => String (lowerChar c) (toLowerCase rest)
  end.

(** [s.includes(sub)] *)
Fixpoint includes (s sub : string) : bool :=
  orb (String.prefix sub s)
    match s with
    | EmptyString => false
    | String _ rest => includes rest sub
    end.

(** [Object3D.traverse]: the callback runs on the object, then on its
    descendants; the callbacks of the source leave [children] alone. *)
Fixpoint traverse (callback : Object3D -> Object3D) (o : Object3D) : Object3D :=
  match o with
  | mkObject _ _ _ _ _ _ _ ch =>
      let o' := callback o in
      mkObject (name o') (isMesh o') (material o') (castShadow o')
        (receiveShadow o') (position o') (scale o') (List.map (traverse callback) ch)
  end.

(** [Object3D.getObjectByName]: the object itself or the first
    descendant, in traversal order, with that name. *)
Fixpoint getObjectByName (o : Object3D) (value : string) : option Object3D :=
  match o with
  | mkObject n _ _ _ _ _ _ ch =>
      if String.eqb n value then Some o
      else
        (fix first (l : list Object3D) : option Object3D :=
           match l with
           | nil => None
           | cons child rest =>
               match getObjectByName child value with
               | Some found => Some found
               | None => first rest
               end
           end) ch
  end.

(** The gray level of the seam lines in [makeBrushedWithLinesTexture]. *)
Definition seam (lineStrength : num) : num :=
  128 - Math.max 0 (Math.min 127 lineStrength).

(** The callback of [applyRealisticMaterials]; [brushedWithLines] is the
    texture made by [makeBrushedWithLinesTexture]. *)
Definition styleMesh (brushedWithLines : Texture) (o : Object3D) : Object3D :=
  if negb (isMesh o) then o
  else
    let meshName := toLowerCase (name o) in
    let shaded (m : Material) :=
      mkObject (name o) (isMesh o) m true true (position o) (scale o) (children o) in
    if includes meshName "solpanel_steel_0" then
      shaded (mkMaterial MeshPhysicalMaterial (Some "#c9cdd3"%string)
                (Some (Fin (95 / 100))) (Some (Fin (35 / 100))) None
                (Some brushedWithLines) (Some (Fin (16 / 10)))
                (Some (Fin (115 / 100))) (Some (Fin (8 / 10))) (Some (Fin (1 / 10))))
    else if orb (includes meshName "cylinder001_steel_0")
                (includes meshName "cylinder002_steel_0") then
      shaded (mkMaterial MeshStandardMaterial (Some "#8e949a"%string)
                (Some (Fin (9 / 10))) (Some (Fin (55 / 100))) None
                None None (Some (Fin 1)) None None)
    else if includes meshName "picture" then
      shaded (mkMaterial MeshPhysicalMaterial None
                (Some (Fin 0)) (Some (Fin (8 / 100))) (map (material o))
                None None (Some (Fin (11 / 10))) (Some (Fin 1)) (Some (Fin (3 / 100))))
    else shaded (material o).

Definition applyRealisticMaterials (brushedWithLines : Texture) (root : Object3D)
  : Object3D :=
  traverse (styleMesh brushedWithLines) root.

(** The largest side of a box, or 1 when that is 0 or [NaN]:
    [Math.max(size.x, size.y, size.z) || 1]. *)
Definition maxDimOf (size : Vector3.t) : num :=
  Math.max (Math.max (Vector3.x size) (Vector3.y size)) (Vector3.z size) || 1.

(** [centerScaleGround]; [setFromObject] stands for
    [new THREE.Box3().setFromObject], the bounding box that three.js
    computes from the geometry. *)
Definition centerScaleGround (setFromObject : Object3D -> Box3.t)
  (object : Object3D) (targetSize : num) : Object3D :=
  let box := setFromObject object in
  let size := Box3.getSize box in
  let center := Box3.getCenter box in
  let moved :=
    mkObject (name object) (isMesh object) (material object) (castShadow object)
      (receiveShadow object) (Vector3.sub (position object) center)
      (scale object) (children object) in
  let newBox := setFromObject moved in
  let grounded :=
    Vector3.mk (Vector3.x (position moved))
      (Vector3.y (position moved) - Vector3.y (Box3.min newBox))
      (Vector3.z (position moved)) in
  let maxDim := maxDimOf size in
  mkObject (name object) (isMesh object) (material object) (castShadow object)
    (receiveShadow object) grounded (Vector3.setScalar (targetSize / maxDim))
    (children object).

Record Camera : Type := mkCamera {
  fov : num;
  cameraPosition : Vector3.t;
  near : num;
  far : num
}.

Record Controls : Type := mkControls {
  target : Vector3.t;
  minDistance : num;
  maxDistance : num
}.

(** [frameCameraToObject]; [controls] is [None] when no controls are
    registered.  The result holds the values that the function assigns.
    The library calls [camera.updateProjectionMatrix()] and
    [controls.update()] are not modelled: when controls are present,
    [OrbitControls.update()] may move the camera afterwards, so the
    camera of the result is the final one only without controls. *)
Definition frameCameraToObject (setFromObject : Object3D -> Box3.t)
  (camera : Camera) (controls : option Controls) (object : Object3D)
  (factor : num) : Camera * option Controls :=
  let box := setFromObject object in
  let size := Box3.getSize box in
  let center := Box3.getCenter box in
  let maxDim := maxDimOf size in
  let fovRad := (fov camera * Math.PI) / 180 in
  let distance := Math.abs (maxDim / (2 * Math.tan (fovRad / 2))) * factor in
  let camera' :=
    mkCamera (fov camera)
      (Vector3.add center (Vector3.mk distance 0 0)) (near camera) (far camera) in
  (camera',
   match controls with
   | Some _ =>
       Some (mkControls center (maxDim * (6 / 10)%R)
               (Math.min (maxDim * 6) 200))
   | None => None
   end).

(** The effect of [FitOnceOnMount]; [targetRef] is [None] while the
    group is not mounted. *)
Record FitState : Type := mkFitState {
  didFit : bool;
  fitCamera : Camera;
  fitControls : option Controls
}.

Definition FitOnceOnMount (setFromObject : Object3D -> Box3.t)
  (st : FitState) (targetRef : option Object3D) : FitState :=
  match didFit st, targetRef with
  | false, Some object =>
      let camera :=
        mkCamera (fov (fitCamera st)) (cameraPosition (fitCamera st))
          (1 / 10)%R 10000 in
      let framed := frameCameraToObject setFromObject camera (fitControls st) object 2 in
      mkFitState true (fst framed) (snd framed)
  | _, _ => st
  end.

(** The object that the mount effect stores in [panelRef]:
    [root.getObjectByName("solpanel") || root]. *)
Definition rotationTarget (root : Object3D) : Object3D :=
  match getObjectByName root "solpanel" with
  | Some found => found
  | None => root
  end.

(** ** The session: the handlers of the component under any schedule *)

Inductive Event : Type :=
| FrameTick (elapsed : num)
| SunTick (pos : SunAngles)
| ModeClick.

Record Session : Type := mkSession {
  mode : Mode;
  refsOf : SolarPanelModel.refs
}.

Definition handle (s : Session) (e : Event) : Session :=
  match e with
  | FrameTick elapsed =>
      mkSession (mode s) (SolarPanelModel.useFrame (mode s) (refsOf s) elapsed)
  | SunTick pos => mkSession (mode s) (SolarPanelModel.update (refsOf s) pos)
  | ModeClick => mkSession (App.toggleMode (mode s)) (refsOf s)
  end.


(** ** Auxiliary definitions for the statements and proofs

    These are not part of the source: the quaternion with four [NaN]
    components, finite quaternions as four reals, and the closed form of
    the spherical interpolation that [Quaternion.slerp] is shown to
    compute. *)

Definition NaN_quaternion : Quaternion.t := Quaternion.mk NaN NaN NaN NaN.

Record R4 : Type := mkR4 { rx : R; ry : R; rz : R; rw : R }.

Definition quat (p : R4) : Quaternion.t :=
  Quaternion.mk (rx p) (ry p) (rz p) (rw p).

Definition dot4 (p q : R4) : R :=
  (rx p * rx q + ry p * ry q + rz p * rz q + rw p * rw q)%R.

Definition mix (p q : R4) (a b : R) : R4 :=
  mkR4 (rx p * a + rx q * b) (ry p * a + ry q * b)
       (rz p * a + rz q * b) (rw p * a + rw q * b).

Definition slerpR (p q : R4) (t : R) : R4 :=
  let d := dot4 p q in
  let s := if Rlt_dec d 0 then (-1)%R else 1%R in
  let c := Rabs d in
  let rA := (sin ((1 - t) * acos c) / sqrt (1 - c * c))%R in
  let rB := (s * (sin (t * acos c) / sqrt (1 - c * c)))%R in
  mix p q rA rB.

(** The largest of three finite sides, or 1 when that is 0. *)
Definition RmaxDim (sx sy sz : R) : R :=
  let m := Rmax (Rmax sx sy) sz in
  if Req_dec_T m 0 then 1%R else m.

(** A box with finite corners. *)
Definition boxR (x0 y0 z0 x1 y1 z1 : R) : Box3.t :=
  Box3.mk (Vector3.mk x0 y0 z0) (Vector3.mk x1 y1 z1).


(** The objects of a scene graph in traversal order. *)
Fixpoint nodes (o : Object3D) : list Object3D :=
  match o with
  | mkObject _ _ _ _ _ _ _ ch => o :: List.flat_map nodes ch
  end.

(** Sample values for the witnesses: an object at (1, 1, 1) and a
    bounding box of sides 2, 4 and 6 that follows the position of the
    object. *)
Definition sample_object : Object3D :=
  mkObject "root" false
    (mkMaterial LoadedMaterial None None None None None None None None None)
    false false (Vector3.mk 1 1 1) (Vector3.mk 1 1 1) nil.

Definition sample_bounds (o : Object3D) : Box3.t :=
  match position o with
  | Vector3.mk (Fin x) (Fin y) (Fin z) => boxR x y z (x + 2) (y + 4) (z + 6)
  | _ => boxR 0 0 0 0 0 0
  end.

(** A mounted session whose rest pose and orientation are unit
    quaternions and whose stored direction is a unit vector. *)
Definition well_formed (s : Session) : Prop :=
  Quaternion.length (SolarPanelModel.baseQuat (refsOf s)) = Fin 1
  /\ (exists current : Quaternion.t,
        SolarPanelModel.panelRef (refsOf s) = Some current
        /\ Quaternion.length current = Fin 1)
  /\ Vector3.length (SolarPanelModel.sunDir (refsOf s)) = Fin 1.

(** An event whose elapsed time or sun angles are finite numbers. *)
Definition finite_event (e : Event) : Prop :=
  match e with
  | FrameTick elapsed => isFinite elapsed = true
  | SunTick pos =>
      isFinite (azimuth pos) = true /\ isFinite (altitude pos) = true
  | ModeClick => True
  end.

(** * Properties *)

(** ** Comparisons on reals *)

Lemma Rltb_true (a b : R) : (a < b)%R -> Rltb a b = true.
Proof. intros H; unfold Rltb; destruct (Rlt_dec a b); [reflexivity | contradiction]. Qed.

Lemma Rltb_false (a b : R) : (b <= a)%R -> Rltb a b = false.
Proof. intros H; unfold Rltb; destruct (Rlt_dec a b); [lra | reflexivity]. Qed.

Lemma Rleb_true (a b : R) : (a <= b)%R -> Rleb a b = true.
Proof. intros H; unfold Rleb; destruct (Rle_dec a b); [reflexivity | contradiction]. Qed.

Lemma Rleb_false (a b : R) : (b < a)%R -> Rleb a b = false.
Proof. intros H; unfold Rleb; destruct (Rle_dec a b); [lra | reflexivity]. Qed.

Lemma Reqb_true (a b : R) : a = b -> Reqb a b = true.
Proof. intros H; unfold Reqb; destruct (Req_dec_T a b); [reflexivity | contradiction]. Qed.

Lemma Reqb_false (a b : R) : a <> b -> Reqb a b = false.
Proof. intros H; unfold Reqb; destruct (Req_dec_T a b); [contradiction | reflexivity]. Qed.

Lemma Rltb_spec (a b : R) : Rltb a b = true <-> (a < b)%R.
Proof. unfold Rltb; destruct (Rlt_dec a b); split; intros; try easy. Qed.

(** ** Finite arithmetic *)

Arguments jadd : simpl never.
Arguments jsub : simpl never.
Arguments jmul : simpl never.
Arguments jdiv : simpl never.
Arguments jneg : simpl never.
Arguments jlt : simpl never.
Arguments jle : simpl never.
Arguments jeq : simpl never.
Arguments jor : simpl never.
Arguments Math.sin : simpl never.
Arguments Math.cos : simpl never.
Arguments Math.sqrt : simpl never.
Arguments Math.abs : simpl never.
Arguments Math.acos : simpl never.
Arguments Math.min : simpl never.
Arguments Math.max : simpl never.
Arguments Math.hypot : simpl never.
Arguments Math.atan2 : simpl never.
Arguments MathUtils.clamp : simpl never.
Arguments MathUtils.degToRad : simpl never.

Lemma add_fin (r s : R) : Fin r + Fin s = Fin (r + s).
Proof. reflexivity. Qed.

Lemma sub_fin (r s : R) : Fin r - Fin s = Fin (r - s).
Proof. reflexivity. Qed.

Lemma mul_fin (r s : R) : Fin r * Fin s = Fin (r * s).
Proof. reflexivity. Qed.

Lemma neg_fin (r : R) : - Fin r = Fin (- r).
Proof. reflexivity. Qed.

Lemma sin_fin (r : R) : Math.sin (Fin r) = Fin (sin r).
Proof. reflexivity. Qed.

Lemma cos_fin (r : R) : Math.cos (Fin r) = Fin (cos r).
Proof. reflexivity. Qed.

Lemma abs_fin (r : R) : Math.abs (Fin r) = Fin (Rabs r).
Proof. reflexivity. Qed.

Lemma hypot_fin (r s : R) : Math.hypot (Fin r) (Fin s) = Fin (sqrt (r * r + s * s)).
Proof. reflexivity. Qed.

Lemma atan2_fin (r s : R) : Math.atan2 (Fin r) (Fin s) = Fin (Math.Ratan2 r s).
Proof. reflexivity. Qed.

Lemma lt_fin (r s : R) : (Fin r <? Fin s) = Rltb r s.
Proof. reflexivity. Qed.

Lemma le_fin (r s : R) : (Fin r <=? Fin s) = Rleb r s.
Proof. reflexivity. Qed.

Lemma eq_fin (r s : R) : (Fin r === Fin s) = Reqb r s.
Proof. reflexivity. Qed.

Create Rewrite HintDb fin.
#[local] Hint Rewrite add_fin sub_fin mul_fin neg_fin sin_fin cos_fin abs_fin
  hypot_fin atan2_fin lt_fin le_fin eq_fin : fin.

Lemma sqrt_fin (r : R) : (0 <= r)%R -> Math.sqrt (Fin r) = Fin (sqrt r).
Proof. intros H; unfold Math.sqrt; now rewrite Rltb_false. Qed.

Lemma acos_fin (r : R) : (-1 <= r <= 1)%R -> Math.acos (Fin r) = Fin (acos r).
Proof.
  intros [H1 H2]; unfold Math.acos.
  now rewrite (Rltb_false r (-1) H1), (Rltb_false 1 r H2).
Qed.

Lemma div_fin (r s : R) : s <> 0%R -> Fin r / Fin s = Fin (r / s).
Proof. intros H; unfold jdiv; now rewrite Reqb_false. Qed.

Lemma min_fin (r s : R) : Math.min (Fin r) (Fin s) = Fin (Rmin r s).
Proof.
  unfold Math.min, jlt, Rltb, Rmin.
  destruct (Rlt_dec s r), (Rle_dec r s); try reflexivity; lra.
Qed.

Lemma max_fin (r s : R) : Math.max (Fin r) (Fin s) = Fin (Rmax r s).
Proof.
  unfold Math.max, jlt, Rltb, Rmax.
  destruct (Rlt_dec r s), (Rle_dec r s); try reflexivity; try lra.
  f_equal; lra.
Qed.

Lemma clamp_fin (v lo hi : R) :
  MathUtils.clamp (Fin v) (Fin lo) (Fin hi) = Fin (Rmax lo (Rmin hi v)).
Proof. unfold MathUtils.clamp; now rewrite min_fin, max_fin. Qed.

Lemma degToRad_fin (d : R) :
  MathUtils.degToRad (Fin d) = Fin (d * (PI / 180)).
Proof.
  unfold MathUtils.degToRad, MathUtils.DEG2RAD, Math.PI.
  rewrite div_fin by lra. reflexivity.
Qed.

Ltac qproj :=
  cbn [Quaternion._x Quaternion._y Quaternion._z Quaternion._w
       Vector3.x Vector3.y Vector3.z Euler.x Euler.y Euler.z].

(** ** The sun direction *)

Import SolarPanelModel.

Lemma direction_norm (a h : R) :
  (sin a * cos h * (sin a * cos h) + sin h * sin h
   + cos a * cos h * (cos a * cos h) = 1)%R.
Proof.
  pose proof (sin2_cos2 a) as Ha. pose proof (sin2_cos2 h) as Hh.
  unfold Rsqr in *. nra.
Qed.

Lemma evaluateSunDirection_fin (a h : R) :
  evaluateSunDirection {| azimuth := a; altitude := h |}
  = Vector3.mk (sin a * cos h)%R (sin h) (cos a * cos h)%R.
Proof.
  unfold evaluateSunDirection, Vector3.normalize, Vector3.divideScalar,
    Vector3.multiplyScalar, Vector3.length; cbn.
  autorewrite with fin.
  rewrite direction_norm, sqrt_fin, sqrt_1 by lra.
  unfold jor. rewrite Reqb_false, div_fin by lra.
  autorewrite with fin.
  f_equal; f_equal; field.
Qed.

(** C1: for every azimuth [a] and altitude [h], the update stores the
    vector (sin a * cos h, sin h, cos a * cos h); the stored vector has
    length 1; and the update changes no other ref. *)
Theorem update_stores_unit_direction (st : refs) (a h : R) :
  let st' := update st {| azimuth := a; altitude := h |} in
  sunDir st' = Vector3.mk (sin a * cos h)%R (sin h) (cos a * cos h)%R
  /\ Vector3.length (sunDir st') = Fin 1
  /\ panelRef st' = panelRef st
  /\ baseQuat st' = baseQuat st.
Proof.
  cbn. rewrite evaluateSunDirection_fin. repeat split.
  unfold Vector3.length; cbn. autorewrite with fin.
  rewrite direction_norm, sqrt_fin by lra. now rewrite sqrt_1.
Qed.

(** ** The tracking target *)

Lemma PI_lower : (31 / 10 < PI)%R.
Proof.
  pose proof (PI_2_3_7_ineq 0) as [H _].
  unfold sum_f_R0, tg_alt, PI_2_3_7_tg, Ratan_seq in H. simpl in H. lra.
Qed.

Lemma limits_fin :
  yawMin LIMITS = Fin (-170 * (PI / 180))
  /\ yawMax LIMITS = Fin (170 * (PI / 180))
  /\ pitchMin LIMITS = Fin (-5 * (PI / 180))
  /\ pitchMax LIMITS = Fin (65 * (PI / 180)).
Proof. unfold LIMITS; cbn; now rewrite !degToRad_fin. Qed.

Lemma clamp_bounds (v lo hi : R) :
  (lo <= hi)%R -> (lo <= Rmax lo (Rmin hi v) <= hi)%R.
Proof.
  intros H. split; [apply Rmax_l|].
  apply Rmax_lub; [exact H | apply Rmin_l].
Qed.

Lemma clamp_inside (v lo hi : R) :
  (lo <= v <= hi)%R -> Rmax lo (Rmin hi v) = v.
Proof.
  intros [H1 H2]. rewrite Rmin_right by exact H2. now rewrite Rmax_right.
Qed.

Lemma trackYaw_fin (x y z : R) :
  trackYaw (Vector3.mk x y z)
  = Fin (Rmax (-170 * (PI / 180)) (Rmin (170 * (PI / 180)) (Math.Ratan2 x z))).
Proof.
  destruct limits_fin as (E1 & E2 & _).
  unfold trackYaw, yawTarget; cbn [Vector3.x Vector3.z].
  now rewrite E1, E2, atan2_fin, clamp_fin.
Qed.

Lemma stow_fin :
  MathUtils.clamp (MathUtils.degToRad 5) (pitchMin LIMITS) (pitchMax LIMITS)
  = MathUtils.degToRad 5.
Proof.
  destruct limits_fin as (_ & _ & E3 & E4).
  rewrite E3, E4, degToRad_fin, clamp_fin. f_equal.
  pose proof PI_RGT_0. apply clamp_inside; lra.
Qed.

Lemma trackPitch_night (x y z : R) :
  (y < 0)%R -> trackPitch (Vector3.mk x y z) = MathUtils.degToRad 5.
Proof.
  intros H. unfold trackPitch, isNight; cbn [Vector3.y].
  rewrite lt_fin, Rltb_true by exact H. apply stow_fin.
Qed.

Lemma trackPitch_day (x y z : R) :
  (0 <= y)%R ->
  trackPitch (Vector3.mk x y z)
  = Fin (Rmax (-5 * (PI / 180))
           (Rmin (65 * (PI / 180)) (Math.Ratan2 y (sqrt (x * x + z * z))))).
Proof.
  intros H. destruct limits_fin as (_ & _ & E3 & E4).
  unfold trackPitch, isNight, pitchTarget; cbn [Vector3.x Vector3.y Vector3.z].
  rewrite lt_fin, Rltb_false by exact H.
  now rewrite E3, E4, hypot_fin, atan2_fin, clamp_fin.
Qed.

(** C2: when the y component of the sun direction is negative the pitch
    is the 5 degree stow angle whatever the other components are, and the
    yaw is still the clamped atan2 (x, z); this covers every altitude in
    (-PI, 0) and every azimuth.  When y is not negative the pitch is the
    clamped atan2 (y, hypot (x, z)). *)
Theorem night_pitch_is_stow_angle (x y z a h : R) :
  let dir := Vector3.mk x y z in
  yawTarget dir = Math.atan2 x z
  /\ pitchTarget dir = Math.atan2 y (Math.hypot x z)
  /\ ((y < 0)%R ->
      isNight dir = true
      /\ trackPitch dir = MathUtils.degToRad 5
      /\ trackPitch dir = Fin (5 * (PI / 180))
      /\ trackYaw dir
         = MathUtils.clamp (Math.atan2 x z) (yawMin LIMITS) (yawMax LIMITS))
  /\ ((- PI < h < 0)%R ->
      trackPitch (evaluateSunDirection {| azimuth := a; altitude := h |})
      = MathUtils.degToRad 5)
  /\ ((0 <= y)%R ->
      isNight dir = false
      /\ trackPitch dir
         = MathUtils.clamp (Math.atan2 y (Math.hypot x z))
             (pitchMin LIMITS) (pitchMax LIMITS)).
Proof.
  cbn zeta. split; [reflexivity|]. split; [reflexivity|].
  split; [|split].
  - intros Hy. split.
    + unfold isNight; cbn [Vector3.y]. now rewrite lt_fin, Rltb_true.
    + split; [now apply trackPitch_night|].
      split; [|reflexivity].
      rewrite trackPitch_night by exact Hy. apply degToRad_fin.
  - intros [H1 H2]. rewrite evaluateSunDirection_fin.
    apply trackPitch_night. now apply sin_lt_0_var.
  - intros Hy.
    assert (E : isNight (Vector3.mk x y z) = false).
    { unfold isNight; cbn [Vector3.y]. now rewrite lt_fin, Rltb_false. }
    split; [exact E|]. unfold trackPitch. rewrite E. reflexivity.
Qed.

Lemma night_pitch_is_stow_angle_witness :
  (-1 < 0)%R /\ (- PI < -1 < 0)%R /\ (0 <= 1)%R
  /\ trackPitch (Vector3.mk 0 (-1) 0) = Fin (5 * (PI / 180))
  /\ trackPitch (evaluateSunDirection {| azimuth := 2; altitude := (-1)%R |})
     = MathUtils.degToRad 5
  /\ isNight (Vector3.mk 0 1 0) = false.
Proof.
  assert (H0 : (-1 < 0)%R) by lra.
  assert (H1 : (- PI < -1 < 0)%R) by (pose proof PI_lower; lra).
  assert (H2 : (0 <= 1)%R) by lra.
  repeat (split; [assumption|]).
  destruct (night_pitch_is_stow_angle 0 (-1) 0 2 (-1)) as (_ & _ & Hn & Ha & _).
  destruct (night_pitch_is_stow_angle 0 1 0 2 (-1)) as (_ & _ & _ & _ & Hd).
  split; [exact (proj1 (proj2 (proj2 (Hn H0))))|].
  split; [exact (Ha H1) | exact (proj1 (Hd H2))].
Defined.

(** C3: for every finite sun direction, including the overhead one
    where hypot (x, z) is 0, the clamped yaw lies in [yawMin, yawMax]
    and the clamped pitch in [pitchMin, pitchMax], on the night path as
    on the day path. *)
Theorem tracking_target_within_limits (x y z : R) :
  let dir := Vector3.mk x y z in
  (yawMin LIMITS <=? trackYaw dir) = true
  /\ (trackYaw dir <=? yawMax LIMITS) = true
  /\ (pitchMin LIMITS <=? trackPitch dir) = true
  /\ (trackPitch dir <=? pitchMax LIMITS) = true.
Proof.
  cbn zeta. destruct limits_fin as (E1 & E2 & E3 & E4).
  rewrite E1, E2, E3, E4, trackYaw_fin.
  pose proof PI_RGT_0 as Hpi.
  assert (Hy : (-170 * (PI / 180) <= 170 * (PI / 180))%R) by lra.
  assert (Hp : (-5 * (PI / 180) <= 65 * (PI / 180))%R) by lra.
  pose proof (clamp_bounds (Math.Ratan2 x z) _ _ Hy) as [Y1 Y2].
  rewrite !le_fin, (Rleb_true _ _ Y1), (Rleb_true _ _ Y2).
  split; [reflexivity|]. split; [reflexivity|].
  destruct (Rlt_dec y 0) as [Hn | Hd].
  - rewrite trackPitch_night, degToRad_fin by exact Hn.
    rewrite !le_fin, !Rleb_true by lra. now split.
  - rewrite trackPitch_day by lra.
    pose proof (clamp_bounds (Math.Ratan2 y (sqrt (x * x + z * z))) _ _ Hp) as [P1 P2].
    rewrite !le_fin, (Rleb_true _ _ P1), (Rleb_true _ _ P2). now split.
Qed.

Lemma Ratan2_tan (h : R) :
  (- (PI / 2) < h < PI / 2)%R -> Math.Ratan2 (sin h) (cos h) = h.
Proof.
  intros [H1 H2]. unfold Math.Ratan2.
  rewrite Rltb_true by (apply cos_gt_0; lra).
  change (sin h / cos h)%R with (tan h). apply atan_tan; lra.
Qed.

Lemma noon_direction :
  evaluateSunDirection {| azimuth := 0; altitude := (11 / 10)%R |}
  = Vector3.mk 0 (sin (11 / 10)) (cos (11 / 10)).
Proof.
  rewrite evaluateSunDirection_fin, sin_0, cos_0.
  f_equal; f_equal; ring.
Qed.

Lemma noon_pitch :
  trackPitch (evaluateSunDirection {| azimuth := 0; altitude := (11 / 10)%R |})
  = Fin (11 / 10).
Proof.
  pose proof PI_lower as Hpi.
  assert (Hc : (0 < cos (11 / 10))%R) by (apply cos_gt_0; lra).
  assert (Hs : (0 < sin (11 / 10))%R) by (apply sin_gt_0; lra).
  rewrite noon_direction, trackPitch_day by lra. f_equal.
  replace (0 * 0 + cos (11 / 10) * cos (11 / 10))%R with (Rsqr (cos (11 / 10)))
    by (unfold Rsqr; ring).
  rewrite sqrt_Rsqr by lra.
  rewrite Ratan2_tan by lra. apply clamp_inside; lra.
Qed.

(** C9 as the code has it: at altitude 1.1 and azimuth 0 the frame
    takes the day path, the clamped yaw is 0, and the clamped pitch is
    the altitude itself, 1.1 rad, which lies inside [-5, 65] degrees. *)
Theorem solar_noon_scenario :
  let dir := evaluateSunDirection {| azimuth := 0; altitude := (11 / 10)%R |} in
  isNight dir = false
  /\ trackYaw dir = Fin 0
  /\ trackPitch dir = Fin (11 / 10)
  /\ trackPitch dir
     = MathUtils.clamp (Fin (11 / 10)) (pitchMin LIMITS) (pitchMax LIMITS).
Proof.
  cbn zeta. pose proof PI_lower as Hpi.
  assert (Hc : (0 < cos (11 / 10))%R) by (apply cos_gt_0; lra).
  assert (Hs : (0 < sin (11 / 10))%R) by (apply sin_gt_0; lra).
  split; [|split; [|split]].
  - rewrite noon_direction. unfold isNight; cbn [Vector3.y].
    rewrite lt_fin. apply Rltb_false; lra.
  - rewrite noon_direction, trackYaw_fin. f_equal.
    unfold Math.Ratan2. rewrite Rltb_true by exact Hc.
    replace (0 / cos (11 / 10))%R with 0%R by (field; lra).
    rewrite atan_0. apply clamp_inside; lra.
  - apply noon_pitch.
  - rewrite noon_pitch. destruct limits_fin as (_ & _ & E3 & E4).
    rewrite E3, E4, clamp_fin. f_equal. symmetry. apply clamp_inside; lra.
Qed.

(** C9 as the claim states it fails: the clamped pitch is not the
    clamped complement PI/2 - 1.1 of the altitude. *)
Lemma solar_noon_pitch_not_complement :
  let dir := evaluateSunDirection {| azimuth := 0; altitude := (11 / 10)%R |} in
  ~ (isNight dir = false
     /\ trackYaw dir = Fin 0
     /\ trackPitch dir
        = MathUtils.clamp (Fin (PI / 2 - 11 / 10))
            (pitchMin LIMITS) (pitchMax LIMITS)).
Proof.
  cbn zeta. intros (_ & _ & H). rewrite noon_pitch in H.
  destruct limits_fin as (_ & _ & E3 & E4).
  rewrite E3, E4, clamp_fin in H. injection H as H.
  pose proof PI_lower as Hpi. pose proof PI_4 as Hpi4.
  rewrite clamp_inside in H by lra. lra.
Qed.

(** ** The demo oscillation *)

Lemma w_fin : w = Fin (PI * 2 / 8).
Proof. unfold w, T, Math.PI. rewrite mul_fin, div_fin by lra. reflexivity. Qed.

Lemma spinPitch_fin (t : R) :
  spinPitch (Fin t)
  = Fin ((8 + (55 - 8) * ((sin (t * (PI * 2 / 8)) + 1) / 2)) * (PI / 180)).
Proof.
  unfold spinPitch, pitchDegMin, pitchDegMax. rewrite w_fin.
  autorewrite with fin. rewrite div_fin by lra.
  autorewrite with fin. now rewrite degToRad_fin.
Qed.

Lemma spinYaw_fin (t : R) :
  spinYaw (Fin t)
  = Fin (sin (t * (PI * 2 / 8) * (35 / 100)) * 30 * (PI / 180)).
Proof.
  unfold spinYaw. rewrite w_fin. autorewrite with fin. now rewrite degToRad_fin.
Qed.

Lemma sin_shift (x y : R) (k : nat) :
  (y = x + 2 * INR k * PI)%R -> sin y = sin x.
Proof. intros ->. apply sin_period. Qed.

(** C6 as the claim states it fails: at t = 0 the (yaw, pitch) pair
    differs from the pair at t = 8, because the yaw has moved. *)
Lemma spin_pair_not_periodic_8 :
  (spinYaw (Fin 0), spinPitch (Fin 0))
  <> (spinYaw (Fin 0 + 8), spinPitch (Fin 0 + 8)).
Proof.
  rewrite add_fin, !spinYaw_fin, !spinPitch_fin. intros H.
  injection H as Hyaw _.
  replace (0 * (PI * 2 / 8) * (35 / 100))%R with 0%R in Hyaw by ring.
  rewrite sin_0 in Hyaw.
  pose proof PI_RGT_0 as Hpi.
  assert (Hs : (0 < sin ((0 + 8) * (PI * 2 / 8) * (35 / 100)))%R)
    by (apply sin_gt_0; lra).
  nra.
Qed.

(** C6 as the code has it: the pitch has period 8 s; the yaw, which
    runs at 0.35 times the pitch frequency, has period 8 / 0.35 = 160/7 s;
    the (yaw, pitch) pair repeats every 160 s. *)
Theorem spin_periods (t : R) :
  spinPitch (Fin t + 8) = spinPitch (Fin t)
  /\ spinYaw (Fin t + Fin (160 / 7)) = spinYaw (Fin t)
  /\ (spinYaw (Fin t + 160), spinPitch (Fin t + 160))
     = (spinYaw (Fin t), spinPitch (Fin t)).
Proof.
  rewrite !add_fin, !spinPitch_fin, !spinYaw_fin.
  assert (E1 : sin ((t + 8) * (PI * 2 / 8)) = sin (t * (PI * 2 / 8))).
  { apply (sin_shift _ _ 1). simpl; field. }
  assert (E2 : sin ((t + 160 / 7) * (PI * 2 / 8) * (35 / 100))
               = sin (t * (PI * 2 / 8) * (35 / 100))).
  { apply (sin_shift _ _ 1). simpl; field. }
  assert (E3 : sin ((t + 160) * (PI * 2 / 8) * (35 / 100))
               = sin (t * (PI * 2 / 8) * (35 / 100))).
  { apply (sin_shift _ _ 7). simpl; field. }
  assert (E4 : sin ((t + 160) * (PI * 2 / 8)) = sin (t * (PI * 2 / 8))).
  { apply (sin_shift _ _ 20). simpl; field. }
  now rewrite E1, E2, E3, E4.
Qed.

Lemma spin_ranges (t : R) :
  (8 * (PI / 180)
   <= (8 + (55 - 8) * ((sin (t * (PI * 2 / 8)) + 1) / 2)) * (PI / 180)
   <= 55 * (PI / 180))%R
  /\ (- 30 * (PI / 180)
      <= sin (t * (PI * 2 / 8) * (35 / 100)) * 30 * (PI / 180)
      <= 30 * (PI / 180))%R.
Proof.
  pose proof PI_RGT_0 as Hpi.
  pose proof (SIN_bound (t * (PI * 2 / 8))) as [P1 P2].
  pose proof (SIN_bound (t * (PI * 2 / 8) * (35 / 100))) as [Y1 Y2].
  repeat split; nra.
Qed.

(** C7: at every elapsed time t the demo pitch is
    8 deg + (55 - 8) deg * (sin (w t) + 1) / 2 with w = 2 PI / 8, between
    8 and 55 degrees; the demo yaw is 30 deg * sin (0.35 w t), between -30
    and 30 degrees; and the frame stores base * tilt(pitch, yaw) as the
    orientation whatever the current orientation is, without the
    slew-limited rotation. *)
Theorem spin_frame_applies_trajectory
  (t : R) (current base : Quaternion.t) (dir : Vector3.t) :
  spinPitch (Fin t)
  = MathUtils.degToRad
      (Fin (8 + (55 - 8) * ((sin (2 * PI / 8 * t) + 1) / 2)))
  /\ spinYaw (Fin t)
     = MathUtils.degToRad (Fin (30 * sin (35 / 100 * (2 * PI / 8) * t)))
  /\ (MathUtils.degToRad 8 <=? spinPitch (Fin t)) = true
  /\ (spinPitch (Fin t) <=? MathUtils.degToRad 55) = true
  /\ (MathUtils.degToRad (-30) <=? spinYaw (Fin t)) = true
  /\ (spinYaw (Fin t) <=? MathUtils.degToRad 30) = true
  /\ useFrame spin (mkRefs (Some current) base dir) (Fin t)
     = mkRefs
         (Some (Quaternion.multiply base
                  (Quaternion.setFromEuler
                     (Euler.mk (spinPitch (Fin t)) (spinYaw (Fin t)) 0))))
         base dir.
Proof.
  destruct (spin_ranges t) as [[P1 P2] [Y1 Y2]].
  rewrite spinPitch_fin, spinYaw_fin, !degToRad_fin, !le_fin.
  replace (2 * PI / 8 * t)%R with (t * (PI * 2 / 8))%R by field.
  replace (35 / 100 * (2 * PI / 8) * t)%R
    with (t * (PI * 2 / 8) * (35 / 100))%R by field.
  split; [reflexivity|].
  split; [f_equal; ring|].
  rewrite !Rleb_true by lra.
  repeat (split; [reflexivity|]).
  unfold useFrame; cbn [panelRef baseQuat sunDir].
  now rewrite spinPitch_fin, spinYaw_fin.
Qed.

(** C10: at every elapsed time t the demo yaw and pitch lie inside the
    mechanical limits, [-170, 170] degrees for the yaw and [-5, 65]
    degrees for the pitch, although the spin branch does not clamp. *)
Theorem spin_within_limits (t : R) :
  (yawMin LIMITS <=? spinYaw (Fin t)) = true
  /\ (spinYaw (Fin t) <=? yawMax LIMITS) = true
  /\ (pitchMin LIMITS <=? spinPitch (Fin t)) = true
  /\ (spinPitch (Fin t) <=? pitchMax LIMITS) = true
  /\ yawMin LIMITS = MathUtils.degToRad (-170)
  /\ yawMax LIMITS = MathUtils.degToRad 170
  /\ pitchMin LIMITS = MathUtils.degToRad (-5)
  /\ pitchMax LIMITS = MathUtils.degToRad 65.
Proof.
  destruct (spin_ranges t) as [[P1 P2] [Y1 Y2]].
  destruct limits_fin as (E1 & E2 & E3 & E4).
  pose proof PI_RGT_0 as Hpi.
  rewrite E1, E2, E3, E4, spinPitch_fin, spinYaw_fin, !le_fin.
  rewrite !Rleb_true by lra.
  rewrite !degToRad_fin. repeat split.
Qed.

(** ** The lighting state *)

Lemma isDay_fin (a : num) (h : R) :
  App.isDay {| azimuth := a; altitude := h |} = Rltb (5 / 100) h.
Proof. reflexivity. Qed.

(** C8 as the claim states it fails at the threshold itself: with
    h1 = 0 < 0.05 <= h2 = 0.05 both altitudes are classified as night and
    the night preset is selected at h2. *)
Lemma no_flip_at_threshold :
  (0 < 5 / 100 <= 5 / 100)%R
  /\ App.isDay {| azimuth := 0; altitude := 0 |} = false
  /\ App.isDay {| azimuth := 0; altitude := (5 / 100)%R |} = false
  /\ App.bgColor (App.update {| azimuth := 0; altitude := (5 / 100)%R |})
     = "#05070d"%string.
Proof.
  split; [lra|]. rewrite !isDay_fin.
  assert (E : Rltb (5 / 100) (5 / 100) = false) by (apply Rltb_false; lra).
  split; [apply Rltb_false; lra|]. split; [exact E|].
  unfold App.update. now rewrite isDay_fin, E.
Qed.

(** C8 as the code has it: an altitude h is classified as day exactly
    when h > 0.05; the update selects the day preset (background #b8d0ff,
    sun intensity 1.8, ambient 0.35) in that case and the night preset
    (background #05070d, sun intensity 0.5, ambient 0.15) otherwise, with
    nothing in between; the classification never goes back from day to
    night as the altitude grows, and it goes from night to day between any
    h1 <= 0.05 < h2. *)
Theorem lighting_presets (a h h1 h2 : R) :
  let pos := {| azimuth := a; altitude := h |} in
  let sky :=
    Vector3.mk (sin a * cos h * 100)%R (sin h * 100)%R (cos a * cos h * 100)%R in
  (App.isDay pos = true <-> (5 / 100 < h)%R)
  /\ ((5 / 100 < h)%R ->
      App.update pos
      = App.mkLighting sky "#b8d0ff" "sunset" (18 / 10)%R (35 / 100)%R)
  /\ ((h <= 5 / 100)%R ->
      App.update pos
      = App.mkLighting sky "#05070d" "night" (5 / 10)%R (15 / 100)%R)
  /\ ((h1 <= h2)%R ->
      App.isDay {| azimuth := a; altitude := h1 |} = true ->
      App.isDay {| azimuth := a; altitude := h2 |} = true)
  /\ ((h1 <= 5 / 100 < h2)%R ->
      App.isDay {| azimuth := a; altitude := h1 |} = false
      /\ App.isDay {| azimuth := a; altitude := h2 |} = true).
Proof.
  cbn zeta. rewrite !isDay_fin.
  split; [apply Rltb_spec|].
  split; [|split; [|split]].
  - intros H. unfold App.update.
    rewrite isDay_fin, Rltb_true by exact H. cbn [azimuth altitude].
    now autorewrite with fin.
  - intros H. unfold App.update.
    rewrite isDay_fin, Rltb_false by exact H. cbn [azimuth altitude].
    now autorewrite with fin.
  - intros H12 H1. apply Rltb_spec in H1. apply Rltb_true. lra.
  - intros [H1 H2]. split; [apply Rltb_false | apply Rltb_true]; lra.
Qed.

Lemma lighting_presets_witness :
  (5 / 100 < 1)%R /\ (0 <= 5 / 100)%R /\ (0 <= 1)%R /\ (0 <= 5 / 100 < 1)%R
  /\ App.bgColor (App.update {| azimuth := 0; altitude := 1 |}) = "#b8d0ff"%string
  /\ App.bgColor (App.update {| azimuth := 0; altitude := 0 |}) = "#05070d"%string
  /\ App.isDay {| azimuth := 0; altitude := 0 |} = false
  /\ App.isDay {| azimuth := 0; altitude := 1 |} = true.
Proof.
  assert (H1 : (5 / 100 < 1)%R) by lra.
  assert (H2 : (0 <= 5 / 100)%R) by lra.
  assert (H3 : (0 <= 1)%R) by lra.
  assert (H4 : (0 <= 5 / 100 < 1)%R) by lra.
  repeat (split; [assumption|]).
  destruct (lighting_presets 0 1 0 1) as (_ & Hd & _ & _ & Hf).
  destruct (lighting_presets 0 0 0 1) as (_ & _ & Hn & _ & _).
  split; [now rewrite (Hd H1)|]. split; [now rewrite (Hn H2)|].
  exact (Hf H4).
Defined.

(** ** Non-finite angles *)

Lemma add_NaN_l (a : num) : NaN + a = NaN.
Proof. reflexivity. Qed.

Lemma add_NaN_r (a : num) : a + NaN = NaN.
Proof. now destruct a. Qed.

Lemma sub_NaN_l (a : num) : NaN - a = NaN.
Proof. reflexivity. Qed.

Lemma sub_NaN_r (a : num) : a - NaN = NaN.
Proof. now destruct a. Qed.

Lemma mul_NaN_l (a : num) : NaN * a = NaN.
Proof. reflexivity. Qed.

Lemma mul_NaN_r (a : num) : a * NaN = NaN.
Proof. now destruct a. Qed.

Lemma div_NaN_l (a : num) : NaN / a = NaN.
Proof. reflexivity. Qed.

Lemma div_NaN_r (a : num) : a / NaN = NaN.
Proof. now destruct a. Qed.

Lemma min_NaN_r (a : num) : Math.min a NaN = NaN.
Proof. now destruct a. Qed.

Lemma max_NaN_r (a : num) : Math.max a NaN = NaN.
Proof. now destruct a. Qed.

Lemma clamp_NaN (lo hi : num) : MathUtils.clamp NaN lo hi = NaN.
Proof. unfold MathUtils.clamp. now rewrite min_NaN_r, max_NaN_r. Qed.

Lemma sin_not_finite (a : num) : isFinite a = false -> Math.sin a = NaN.
Proof. now destruct a. Qed.

Lemma cos_not_finite (a : num) : isFinite a = false -> Math.cos a = NaN.
Proof. now destruct a. Qed.

Lemma atan2_NaN_r (a : num) : Math.atan2 a NaN = NaN.
Proof. now destruct a. Qed.

Create Rewrite HintDb nan.
#[local] Hint Rewrite add_NaN_l add_NaN_r sub_NaN_l sub_NaN_r mul_NaN_l mul_NaN_r
  div_NaN_l div_NaN_r min_NaN_r max_NaN_r clamp_NaN atan2_NaN_r : nan.

(** A non-finite angle leaves [NaN] in the x and z components of the
    stored direction, and in the y component when the altitude is the
    non-finite one. *)
Lemma direction_not_finite (pos : SunAngles) :
  isFinite (azimuth pos) = false \/ isFinite (altitude pos) = false ->
  Vector3.x (evaluateSunDirection pos) = NaN
  /\ Vector3.z (evaluateSunDirection pos) = NaN
  /\ (isFinite (altitude pos) = false -> Vector3.y (evaluateSunDirection pos) = NaN).
Proof.
  intros H.
  assert (Ex : Math.sin (azimuth pos) * Math.cos (altitude pos) = NaN).
  { destruct H as [H | H].
    - rewrite (sin_not_finite _ H). reflexivity.
    - rewrite (cos_not_finite _ H). apply mul_NaN_r. }
  assert (Ez : Math.cos (azimuth pos) * Math.cos (altitude pos) = NaN).
  { destruct H as [H | H].
    - rewrite (cos_not_finite _ H). reflexivity.
    - rewrite (cos_not_finite _ H). apply mul_NaN_r. }
  unfold evaluateSunDirection, Vector3.normalize, Vector3.divideScalar,
    Vector3.multiplyScalar; cbn [Vector3.x Vector3.y Vector3.z].
  rewrite Ex, Ez. repeat split.
  intros Hh. now rewrite (sin_not_finite _ Hh).
Qed.

Lemma setFromEuler_NaN_yaw (pitch roll : num) :
  Quaternion.setFromEuler (Euler.mk pitch NaN roll) = NaN_quaternion.
Proof.
  unfold Quaternion.setFromEuler; cbn [Euler.x Euler.y Euler.z].
  rewrite div_NaN_l. change (Math.cos NaN) with NaN. change (Math.sin NaN) with NaN.
  autorewrite with nan. reflexivity.
Qed.

Lemma multiply_NaN (a : Quaternion.t) :
  Quaternion.multiply a NaN_quaternion = NaN_quaternion.
Proof.
  unfold Quaternion.multiply, NaN_quaternion; qproj.
  autorewrite with nan. reflexivity.
Qed.

Lemma rotateTowards_NaN (a : Quaternion.t) (step : num) :
  Quaternion.rotateTowards a NaN_quaternion step = NaN_quaternion.
Proof.
  unfold Quaternion.rotateTowards, Quaternion.angleTo, Quaternion.dot,
    NaN_quaternion; qproj.
  autorewrite with nan.
  change (Math.acos (Math.abs NaN)) with NaN. autorewrite with nan.
  change (NaN === 0) with false. cbv iota.
  unfold Quaternion.slerp; qproj.
  change (NaN === 0) with false. change (NaN === 1) with false. cbv iota.
  autorewrite with nan. change (NaN <? 0) with false. cbv iota zeta.
  change (1 <=? NaN) with false. cbv iota.
  autorewrite with nan. change (NaN <=? Number_EPSILON) with false. cbv iota.
  change (Math.sqrt NaN) with NaN. autorewrite with nan. reflexivity.
Qed.

(** In tracking mode a direction whose x component is [NaN] turns the
    orientation into [NaN] in one frame. *)
Lemma tracking_frame_NaN (current base : Quaternion.t) (dir : Vector3.t) (t : num) :
  Vector3.x dir = NaN ->
  panelRef (useFrame sun (mkRefs (Some current) base dir) t) = Some NaN_quaternion.
Proof.
  intros Hx. unfold useFrame; cbn [panelRef baseQuat sunDir].
  unfold trackYaw, yawTarget. rewrite Hx.
  change (Math.atan2 NaN (Vector3.z dir)) with NaN.
  rewrite clamp_NaN, setFromEuler_NaN_yaw, multiply_NaN, rotateTowards_NaN.
  reflexivity.
Qed.

(** ** The slew-limited rotation *)

Lemma length_quat (p : R4) :
  Quaternion.length (quat p) = Fin (sqrt (dot4 p p)).
Proof.
  unfold Quaternion.length, quat, dot4; qproj.
  autorewrite with fin. apply sqrt_fin. nra.
Qed.

Lemma unit_length_finite (q : Quaternion.t) :
  Quaternion.length q = Fin 1 -> exists p : R4, q = quat p /\ dot4 p p = 1%R.
Proof.
  destruct q as [x y z w]. intros H.
  destruct x as [x| | |], y as [y| | |], z as [z| | |], w as [w| | |];
    try (exfalso; revert H; unfold Quaternion.length; qproj;
         unfold jmul, jadd, Math.sqrt; simpl; discriminate).
  exists (mkR4 x y z w). split; [reflexivity|].
  change (Quaternion.mk x y z w) with (quat (mkR4 x y z w)) in H.
  rewrite length_quat in H. injection H as H.
  assert (H0 : (0 <= dot4 (mkR4 x y z w) (mkR4 x y z w))%R).
  { unfold dot4; cbn [rx ry rz rw]. nra. }
  rewrite <- (sqrt_sqrt _ H0), H. ring.
Qed.

Section UnitQuaternions.

Variables p q : R4.
Hypothesis Hp : dot4 p p = 1%R.
Hypothesis Hq : dot4 q q = 1%R.

Lemma dot4_bound : (-1 <= dot4 p q <= 1)%R.
Proof.
  revert Hp Hq. unfold dot4. intros Hp' Hq'.
  pose proof (Rle_0_sqr (rx p - rx q)). pose proof (Rle_0_sqr (ry p - ry q)).
  pose proof (Rle_0_sqr (rz p - rz q)). pose proof (Rle_0_sqr (rw p - rw q)).
  pose proof (Rle_0_sqr (rx p + rx q)). pose proof (Rle_0_sqr (ry p + ry q)).
  pose proof (Rle_0_sqr (rz p + rz q)). pose proof (Rle_0_sqr (rw p + rw q)).
  unfold Rsqr in *. split; lra.
Qed.

Lemma dot_quat : Quaternion.dot (quat p) (quat q) = Fin (dot4 p q).
Proof. reflexivity. Qed.

Lemma angleTo_quat :
  Quaternion.angleTo (quat p) (quat q) = Fin (2 * acos (Rabs (dot4 p q))).
Proof.
  pose proof dot4_bound as Hb.
  unfold Quaternion.angleTo. rewrite dot_quat, clamp_fin, clamp_inside by lra.
  rewrite abs_fin, acos_fin, mul_fin; [reflexivity|].
  split; [pose proof (Rabs_pos (dot4 p q)); lra | apply Rabs_le; lra].
Qed.

(** The product of two unit quaternions is a unit quaternion. *)
Lemma multiply_unit :
  Quaternion.length (Quaternion.multiply (quat p) (quat q)) = Fin 1.
Proof.
  unfold Quaternion.multiply, Quaternion.length, quat; qproj.
  autorewrite with fin.
  match goal with
  | |- Math.sqrt (Fin ?e) = _ =>
      replace e with (dot4 p p * dot4 q q)%R by (unfold dot4; ring)
  end.
  rewrite Hp, Hq, Rmult_1_r, sqrt_fin by lra. now rewrite sqrt_1.
Qed.

End UnitQuaternions.

Lemma dot4_mix (p q : R4) (a b : R) :
  dot4 (mix p q a b) (mix p q a b)
  = (a * a * dot4 p p + 2 * (a * b) * dot4 p q + b * b * dot4 q q)%R
  /\ dot4 (mix p q a b) q = (a * dot4 p q + b * dot4 q q)%R
  /\ dot4 p (mix p q a b) = (a * dot4 p p + b * dot4 p q)%R.
Proof. unfold dot4, mix; cbn [rx ry rz rw]. repeat split; ring. Qed.

Lemma Ratan2_acos (c : R) :
  (0 <= c < 1)%R -> Math.Ratan2 (sqrt (1 - c * c)) c = acos c.
Proof.
  intros [H0 H1]. unfold Math.Ratan2.
  destruct (Rle_lt_or_eq_dec 0 c H0) as [Hpos | <-].
  - rewrite Rltb_true by exact Hpos. symmetry. now apply acos_atan.
  - rewrite !(Rltb_false 0 0) by lra.
    replace (1 - 0 * 0)%R with 1%R by ring. rewrite sqrt_1.
    rewrite Rltb_true by lra. now rewrite acos_0.
Qed.

Lemma acos_quadrant (c : R) :
  (0 <= c < 1)%R -> (0 < acos c <= PI / 2)%R.
Proof.
  intros [H0 H1]. split; [apply acos_bound_lt; lra|].
  destruct (Rle_lt_or_eq_dec 0 c H0) as [Hpos | <-].
  - rewrite acos_atan by exact Hpos.
    pose proof (atan_bound (sqrt (1 - c²) / c)). lra.
  - rewrite acos_0. lra.
Qed.

Lemma slerp_quat (p q : R4) (t : R) :
  dot4 p p = 1%R -> dot4 q q = 1%R -> (0 < t < 1)%R ->
  (/ 2 ^ 52 < 1 - dot4 p q * dot4 p q)%R ->
  Quaternion.slerp (quat p) (quat q) (Fin t) = quat (slerpR p q t).
Proof.
  intros Hp Hq [Ht0 Ht1] Heps.
  assert (Hpow : (0 < / 2 ^ 52)%R) by (apply Rinv_0_lt_compat; lra).
  unfold Quaternion.slerp. rewrite !eq_fin, !Reqb_false by lra.
  unfold quat; qproj.
  autorewrite with fin.
  replace (rw p * rw q + rx p * rx q + ry p * ry q + rz p * rz q)%R
    with (dot4 p q) by (unfold dot4; ring).
  unfold slerpR. set (d := dot4 p q) in *. cbv zeta.
  assert (Hc : (0 <= Rabs d < 1)%R).
  { split; [apply Rabs_pos|]. apply Rabs_def1; nra. }
  assert (Hs : (/ 2 ^ 52 < 1 - Rabs d * Rabs d)%R).
  { replace (Rabs d * Rabs d)%R with (d * d)%R; [exact Heps|].
    unfold Rabs; destruct (Rcase_abs d); ring. }
  assert (Hq0 : (0 < sqrt (1 - Rabs d * Rabs d))%R) by (apply sqrt_lt_R0; lra).
  set (c := Rabs d) in *.
  assert (E : (if Rltb d 0 then Fin (- d) else Fin d) = Fin c).
  { unfold Rltb, c. destruct (Rlt_dec d 0).
    - now rewrite Rabs_left.
    - rewrite Rabs_right; [reflexivity | lra]. }
  rewrite !E. autorewrite with fin.
  rewrite Rleb_false by lra.
  unfold Number_EPSILON. rewrite le_fin, Rleb_false by lra.
  rewrite sqrt_fin by lra. rewrite atan2_fin, Ratan2_acos by lra.
  autorewrite with fin. rewrite !div_fin by lra.
  unfold Rltb. destruct (Rlt_dec d 0);
    unfold mix; qproj; cbn [rx ry rz rw];
    autorewrite with fin; f_equal; f_equal; ring.
Qed.

Lemma slerp_sin_target (a b : R) :
  (sin a * cos (a + b) + sin b = cos a * sin (a + b))%R.
Proof.
  rewrite sin_plus, cos_plus.
  pose proof (sin2_cos2 a) as Ha. unfold Rsqr in Ha.
  replace (cos a * (sin a * cos b + cos a * sin b))%R
    with (sin a * cos a * cos b + (cos a * cos a) * sin b)%R by ring.
  replace (cos a * cos a)%R with (1 - sin a * sin a)%R by lra. ring.
Qed.

Lemma slerp_sin_norm (a b : R) :
  (sin a * sin a + 2 * (sin a * sin b) * cos (a + b) + sin b * sin b
   = sin (a + b) * sin (a + b))%R.
Proof.
  rewrite sin_plus, cos_plus.
  pose proof (sin2_cos2 a) as Ha. pose proof (sin2_cos2 b) as Hb.
  unfold Rsqr in *.
  replace ((sin a * cos b + cos a * sin b) * (sin a * cos b + cos a * sin b))%R
    with (sin a * sin a * (cos b * cos b) + 2 * (sin a * sin b) * (cos a * cos b)
          + (cos a * cos a) * (sin b * sin b))%R by ring.
  replace (cos a * cos a)%R with (1 - sin a * sin a)%R by lra.
  replace (cos b * cos b)%R with (1 - sin b * sin b)%R by lra. ring.
Qed.

Lemma slerpR_dots (p q : R4) (t : R) :
  dot4 p p = 1%R -> dot4 q q = 1%R -> (0 < t < 1)%R ->
  (Rabs (dot4 p q) < 1)%R ->
  dot4 (slerpR p q t) (slerpR p q t) = 1%R
  /\ Rabs (dot4 (slerpR p q t) q) = cos ((1 - t) * acos (Rabs (dot4 p q)))
  /\ Rabs (dot4 p (slerpR p q t)) = cos (t * acos (Rabs (dot4 p q))).
Proof.
  intros Hp Hq [Ht0 Ht1] Hlt.
  assert (Hc : (0 <= Rabs (dot4 p q) < 1)%R) by (split; [apply Rabs_pos | exact Hlt]).
  destruct (acos_quadrant _ Hc) as [Hth0 Hth1].
  assert (HS : sin (acos (Rabs (dot4 p q)))
               = sqrt (1 - Rabs (dot4 p q) * Rabs (dot4 p q))).
  { apply sin_acos. lra. }
  assert (HC : cos (acos (Rabs (dot4 p q))) = Rabs (dot4 p q)).
  { apply cos_acos. lra. }
  assert (HS0 : (0 < sqrt (1 - Rabs (dot4 p q) * Rabs (dot4 p q)))%R).
  { apply sqrt_lt_R0. nra. }
  set (th := acos (Rabs (dot4 p q))) in *.
  set (S := sqrt (1 - Rabs (dot4 p q) * Rabs (dot4 p q))) in *.
  set (c := Rabs (dot4 p q)) in *.
  pose proof (slerp_sin_target ((1 - t) * th) (t * th)) as F1.
  pose proof (slerp_sin_target (t * th) ((1 - t) * th)) as F2.
  pose proof (slerp_sin_norm ((1 - t) * th) (t * th)) as F3.
  replace ((1 - t) * th + t * th)%R with th in F1, F3 by ring.
  replace (t * th + (1 - t) * th)%R with th in F2 by ring.
  rewrite HS, HC in F1, F2, F3.
  assert (Ha : (0 <= cos ((1 - t) * th))%R).
  { apply cos_ge_0; nra. }
  assert (Hb : (0 <= cos (t * th))%R).
  { apply cos_ge_0; nra. }
  set (sa := sin ((1 - t) * th)) in *. set (sb := sin (t * th)) in *.
  set (ca := cos ((1 - t) * th)) in *. set (cb := cos (t * th)) in *.
  assert (Hd : exists s : R, (s = 1 \/ s = -1)%R /\ dot4 p q = (s * c)%R
            /\ (if Rlt_dec (dot4 p q) 0 then (-1)%R else 1%R) = s).
  { unfold c. destruct (Rlt_dec (dot4 p q) 0) as [Hn | Hn].
    - exists (-1)%R. rewrite Rabs_left by exact Hn. repeat split; [now right | ring].
    - exists 1%R. rewrite Rabs_right by lra. repeat split; [now left | ring]. }
  destruct Hd as (s & Hs & Hdc & Hsel).
  assert (Hss : (s * s = 1)%R) by (destruct Hs; subst s; ring).
  unfold slerpR. cbv zeta. rewrite Hsel. fold c S th sa sb.
  destruct (dot4_mix p q (sa / S) (s * (sb / S))) as (E1 & E2 & E3).
  rewrite E1, E2, E3, Hp, Hq, Hdc. clear E1 E2 E3.
  assert (HSn : S <> 0%R) by lra.
  split; [|split].
  - replace (sa / S * (sa / S) * 1 + 2 * (sa / S * (s * (sb / S))) * (s * c)
             + s * (sb / S) * (s * (sb / S)) * 1)%R
      with ((sa * sa + 2 * (sa * sb) * c * (s * s) + sb * sb * (s * s)) / (S * S))%R
      by (field; exact HSn).
    rewrite Hss, !Rmult_1_r, F3. field. exact HSn.
  - replace (sa / S * (s * c) + s * (sb / S) * 1)%R
      with (s * ((sa * c + sb) / S))%R by (field; exact HSn).
    rewrite F1. replace (ca * S / S)%R with ca by (field; exact HSn).
    destruct Hs; subst s.
    + rewrite Rmult_1_l. apply Rabs_right. lra.
    + replace (-1 * ca)%R with (- ca)%R by ring. rewrite Rabs_Ropp.
      apply Rabs_right. lra.
  - replace (sa / S * 1 + s * (sb / S) * (s * c))%R
      with ((sb * c * (s * s) + sa) / S)%R by (field; exact HSn).
    rewrite Hss, Rmult_1_r, F2.
    replace (cb * S / S)%R with cb by (field; exact HSn).
    apply Rabs_right. lra.
Qed.

Lemma sin_small_lower : (1499 / 100000000000 < sin (15 / 1000000000))%R.
Proof.
  assert (H0 : (0 <= 15 / 1000000000)%R) by lra.
  assert (H1 : (15 / 1000000000 <= PI)%R) by (pose proof PI2_1; lra).
  pose proof (SIN _ H0 H1) as [H _].
  unfold sin_lb, sin_approx, sin_term in H. simpl in H. lra.
Qed.

Lemma above_epsilon (c step : R) :
  (0 <= c < 1)%R -> (3 / 100000000 <= step)%R -> (step < 2 * acos c)%R ->
  (/ 2 ^ 52 < 1 - c * c)%R.
Proof.
  intros Hc Hstep Hlt. destruct (acos_quadrant c Hc) as [H0 H1].
  assert (Hsin : (sin (15 / 1000000000) <= sin (acos c))%R).
  { pose proof PI2_1. apply sin_incr_1; lra. }
  pose proof sin_small_lower as Hlow.
  rewrite sin_acos in Hsin by lra.
  assert (Hsq : (sqrt (1 - c²) * sqrt (1 - c²) = 1 - c * c)%R).
  { apply sqrt_sqrt. unfold Rsqr. nra. }
  assert (Heps : (/ 2 ^ 52 < 1499 / 100000000000 * (1499 / 100000000000))%R) by lra.
  nra.
Qed.

Lemma angle_zero_self (p : R4) :
  dot4 p p = 1%R -> Quaternion.angleTo (quat p) (quat p) = Fin 0.
Proof.
  intros Hp. rewrite angleTo_quat, Hp by exact Hp.
  rewrite Rabs_R1, acos_1. f_equal. ring.
Qed.

(** The quaternion built from finite Euler angles has length 1. *)
Lemma setFromEuler_unit (a b c : R) :
  exists e : R4,
    Quaternion.setFromEuler (Euler.mk a b c) = quat e /\ dot4 e e = 1%R.
Proof.
  exists (mkR4
    (sin (a / 2) * cos (b / 2) * cos (c / 2) + cos (a / 2) * sin (b / 2) * sin (c / 2))
    (cos (a / 2) * sin (b / 2) * cos (c / 2) - sin (a / 2) * cos (b / 2) * sin (c / 2))
    (cos (a / 2) * cos (b / 2) * sin (c / 2) + sin (a / 2) * sin (b / 2) * cos (c / 2))
    (cos (a / 2) * cos (b / 2) * cos (c / 2) - sin (a / 2) * sin (b / 2) * sin (c / 2))).
  split.
  - unfold Quaternion.setFromEuler; cbn [Euler.x Euler.y Euler.z].
    rewrite !div_fin by lra. now autorewrite with fin.
  - unfold dot4; cbn [rx ry rz rw].
    pose proof (sin2_cos2 (a / 2)) as Ha. pose proof (sin2_cos2 (b / 2)) as Hb.
    pose proof (sin2_cos2 (c / 2)) as Hc. unfold Rsqr in *.
    match goal with
    | |- ?e = _ =>
        replace e
          with ((sin (a / 2) * sin (a / 2) + cos (a / 2) * cos (a / 2))
                * (sin (b / 2) * sin (b / 2) + cos (b / 2) * cos (b / 2))
                * (sin (c / 2) * sin (c / 2) + cos (c / 2) * cos (c / 2)))%R
          by ring
    end.
    rewrite Ha, Hb, Hc. ring.
Qed.

Lemma track_angles_fin (x y z : R) :
  exists yaw pitch : R,
    trackYaw (Vector3.mk x y z) = Fin yaw /\ trackPitch (Vector3.mk x y z) = Fin pitch.
Proof.
  destruct (Rlt_dec y 0) as [Hn | Hd].
  - eexists; eexists. split; [apply trackYaw_fin|].
    rewrite trackPitch_night by exact Hn. apply degToRad_fin.
  - eexists; eexists. split; [apply trackYaw_fin|].
    apply trackPitch_day. lra.
Qed.

(** With a unit rest pose and a finite direction, the target of the
    tracking frame is a unit quaternion. *)
Lemma tracking_target_unit (base : Quaternion.t) (x y z : R) :
  Quaternion.length base = Fin 1 ->
  Quaternion.length
    (Quaternion.multiply base
       (Quaternion.setFromEuler
          (Euler.mk (trackPitch (Vector3.mk x y z)) (trackYaw (Vector3.mk x y z)) 0)))
  = Fin 1.
Proof.
  intros Hb. destruct (unit_length_finite _ Hb) as (b & -> & Hb1).
  destruct (track_angles_fin x y z) as (yaw & pitch & -> & ->).
  destruct (setFromEuler_unit pitch yaw 0) as (e & -> & He).
  now apply multiply_unit.
Qed.

(** C4: for unit quaternions [current] and [target] and a slew limit
    [maxStep] of at least 3e-8 rad, one [rotateTowards] step moves the
    orientation by an angle [m] of at most [maxStep]; the remaining angle
    [d1] to the target is not larger than the angle [d0] before the step;
    the step does not pass the target, since the angle moved and the
    angle remaining add up to [d0]; when the target is farther than
    [maxStep] the step rotates toward it by exactly [maxStep], leaving
    [d0 - maxStep]; and when [d0] is at most [maxStep]
    nothing remains: the result is [target] itself, or [d0] was 0 already
    and the orientation stays.  The tracking frame is such a step, with
    [maxStep] = 0.02 and the clamped target, which is a unit quaternion
    when the rest pose is one. *)
Theorem rotateTowards_slew
  (current target base : Quaternion.t) (maxStep x y z : R) (elapsed : num) :
  Quaternion.length current = Fin 1 ->
  Quaternion.length target = Fin 1 ->
  (3 / 100000000 <= maxStep)%R ->
  let next := Quaternion.rotateTowards current target (Fin maxStep) in
  let dir := Vector3.mk x y z in
  let qFinal :=
    Quaternion.multiply base
      (Quaternion.setFromEuler (Euler.mk (trackPitch dir) (trackYaw dir) 0)) in
  (exists d0 d1 m : R,
    Quaternion.angleTo current target = Fin d0
    /\ Quaternion.angleTo next target = Fin d1
    /\ Quaternion.angleTo current next = Fin m
    /\ Quaternion.length next = Fin 1
    /\ (0 <= m <= maxStep)%R
    /\ (0 <= d1 <= d0)%R
    /\ (m + d1 = d0)%R
    /\ ((maxStep < d0)%R -> m = maxStep /\ d1 = (d0 - maxStep)%R)
    /\ ((d0 <= maxStep)%R ->
        d1 = 0%R /\ (next = target \/ (d0 = 0%R /\ next = current))))
  /\ panelRef (useFrame sun (mkRefs (Some current) base dir) elapsed)
     = Some (Quaternion.rotateTowards current qFinal (Fin (2 / 100)))
  /\ (Quaternion.length base = Fin 1 -> Quaternion.length qFinal = Fin 1).
Proof.
  intros Hc Ht Hstep. cbn zeta.
  split; [|split; [reflexivity | apply tracking_target_unit]].
  destruct (unit_length_finite _ Hc) as (p & -> & Hp).
  destruct (unit_length_finite _ Ht) as (q & -> & Hq).
  cbn zeta. unfold Quaternion.rotateTowards.
  rewrite (angleTo_quat p q Hp Hq).
  pose proof (dot4_bound p q Hp Hq) as Hb.
  assert (Hc01 : (0 <= Rabs (dot4 p q) <= 1)%R).
  { split; [apply Rabs_pos | apply Rabs_le; lra]. }
  pose proof (acos_bound (Rabs (dot4 p q))) as [Hth0 Hth1].
  set (th := acos (Rabs (dot4 p q))) in *.
  rewrite eq_fin.
  destruct (Req_dec_T (2 * th) 0) as [Hz | Hnz].
  - rewrite Reqb_true by exact Hz.
    exists (2 * th)%R, (2 * th)%R, 0%R.
    rewrite (angleTo_quat p q Hp Hq), (angle_zero_self p Hp), (length_quat p), Hp, sqrt_1.
    fold th. repeat split; try reflexivity; try lra.
    right. split; [exact Hz | reflexivity].
  - rewrite Reqb_false by exact Hnz.
    rewrite div_fin, min_fin by exact Hnz.
    destruct (Rle_dec (2 * th) maxStep) as [Hnear | Hfar].
    + assert (Hmin : Rmin 1 (maxStep / (2 * th)) = 1%R).
      { apply Rmin_left. apply Rmult_le_reg_r with (2 * th)%R; [lra|].
        unfold Rdiv. rewrite Rmult_assoc, Rinv_l by exact Hnz. lra. }
      rewrite Hmin. unfold Quaternion.slerp.
      rewrite !eq_fin, Reqb_false, Reqb_true by lra.
      exists (2 * th)%R, 0%R, (2 * th)%R.
      rewrite (angleTo_quat p q Hp Hq), (angle_zero_self q Hq), (length_quat q), Hq, sqrt_1.
      fold th. repeat split; try reflexivity; try lra. now left.
    + assert (Hfar' : (maxStep < 2 * th)%R) by lra.
      set (t := (maxStep / (2 * th))%R).
      assert (Ht01 : (0 < t < 1)%R).
      { unfold t. split.
        - apply Rdiv_lt_0_compat; lra.
        - apply Rmult_lt_reg_r with (2 * th)%R; [lra|].
          unfold Rdiv. rewrite Rmult_assoc, Rinv_l by exact Hnz. lra. }
      assert (Hmin : Rmin 1 t = t) by (apply Rmin_right; lra).
      rewrite Hmin.
      assert (Hlt1 : (Rabs (dot4 p q) < 1)%R).
      { destruct (proj2 Hc01) as [Hlt | Heq]; [exact Hlt|].
        exfalso. apply Hnz. unfold th. rewrite Heq, acos_1. ring. }
      assert (Heps : (/ 2 ^ 52 < 1 - dot4 p q * dot4 p q)%R).
      { replace (dot4 p q * dot4 p q)%R with (Rabs (dot4 p q) * Rabs (dot4 p q))%R
          by (unfold Rabs; destruct (Rcase_abs (dot4 p q)); ring).
        apply (above_epsilon _ maxStep); [lra | exact Hstep | exact Hfar']. }
      rewrite (slerp_quat p q t Hp Hq Ht01 Heps).
      destruct (slerpR_dots p q t Hp Hq Ht01 Hlt1) as (Hn & Hdq & Hdp).
      fold th in Hdq, Hdp.
      exists (2 * th)%R, (2 * ((1 - t) * th))%R, (2 * (t * th))%R.
      rewrite (angleTo_quat _ q Hn Hq), (angleTo_quat p _ Hp Hn), Hdq, Hdp.
      rewrite !acos_cos by nra.
      rewrite length_quat, Hn, sqrt_1.
      assert (Em : (2 * (t * th) = maxStep)%R) by (unfold t; field; lra).
      repeat split; try reflexivity; try nra.
Qed.

Lemma identity_unit : Quaternion.length Quaternion.identity = Fin 1.
Proof.
  change Quaternion.identity with (quat (mkR4 0 0 0 1)).
  rewrite length_quat. unfold dot4; cbn [rx ry rz rw].
  replace (0 * 0 + 0 * 0 + 0 * 0 + 1 * 1)%R with 1%R by ring. now rewrite sqrt_1.
Qed.

Lemma half_turn_unit : Quaternion.length (Quaternion.mk 1 0 0 0) = Fin 1.
Proof.
  change (Quaternion.mk 1 0 0 0) with (quat (mkR4 1 0 0 0)).
  rewrite length_quat. unfold dot4; cbn [rx ry rz rw].
  replace (1 * 1 + 0 * 0 + 0 * 0 + 0 * 0)%R with 1%R by ring. now rewrite sqrt_1.
Qed.

Lemma rotateTowards_slew_witness :
  Quaternion.length Quaternion.identity = Fin 1
  /\ Quaternion.length (Quaternion.mk 1 0 0 0) = Fin 1
  /\ (3 / 100000000 <= 2 / 100)%R
  /\ let next :=
       Quaternion.rotateTowards Quaternion.identity (Quaternion.mk 1 0 0 0)
         slewStep in
     exists d0 d1 m : R,
       Quaternion.angleTo Quaternion.identity (Quaternion.mk 1 0 0 0) = Fin d0
       /\ Quaternion.angleTo next (Quaternion.mk 1 0 0 0) = Fin d1
       /\ Quaternion.angleTo Quaternion.identity next = Fin m
       /\ Quaternion.length next = Fin 1
       /\ (0 <= m <= 2 / 100)%R
       /\ (0 <= d1 <= d0)%R
       /\ (m + d1 = d0)%R
       /\ ((2 / 100 < d0)%R -> m = (2 / 100)%R /\ d1 = (d0 - 2 / 100)%R)
       /\ ((d0 <= 2 / 100)%R ->
           d1 = 0%R
           /\ (next = Quaternion.mk 1 0 0 0
               \/ (d0 = 0%R /\ next = Quaternion.identity))).
Proof.
  assert (H : (3 / 100000000 <= 2 / 100)%R) by lra.
  split; [exact identity_unit|]. split; [exact half_turn_unit|].
  split; [exact H|].
  exact (proj1 (rotateTowards_slew Quaternion.identity (Quaternion.mk 1 0 0 0)
                  Quaternion.identity (2 / 100) 0 1 0 0
                  identity_unit half_turn_unit H)).
Defined.

(** ** Non-finite angles and the orientation *)

(** C5 as the claim states it fails: with the panel mounted at the
    identity orientation, a [NaN] reading from the sun-position source
    followed by one tracking frame leaves [NaN] in every component of
    the orientation instead of the last valid value. *)
Lemma nan_reading_corrupts_orientation :
  let st := mount initial Quaternion.identity in
  let pos := {| azimuth := NaN; altitude := NaN |} in
  isFinite (azimuth pos) = false
  /\ panelRef st = Some Quaternion.identity
  /\ panelRef (useFrame sun (update st pos) 0) = Some NaN_quaternion
  /\ panelRef (useFrame sun (update st pos) 0) <> panelRef st.
Proof.
  cbn zeta. split; [reflexivity|]. split; [reflexivity|].
  assert (E : panelRef (useFrame sun
                (update (mount initial Quaternion.identity)
                   {| azimuth := NaN; altitude := NaN |}) 0)
              = Some NaN_quaternion).
  { unfold update, mount; cbn [panelRef baseQuat sunDir].
    apply tracking_frame_NaN.
    exact (proj1 (direction_not_finite {| azimuth := NaN; altitude := NaN |}
                    (or_introl eq_refl))). }
  split; [exact E|]. rewrite E. cbn. discriminate.
Qed.

(** C5 as the code has it: a non-finite azimuth or altitude is not held
    back.  The update overwrites the stored direction with one whose x
    and z components are [NaN] and leaves the orientation alone; the next
    tracking frame then turns every component of the orientation into
    [NaN]; a demo frame computes the orientation without the stored
    direction, so the reading does not reach it. *)
Theorem non_finite_angles_reach_orientation
  (pos : SunAngles) (current base : Quaternion.t) (dir : Vector3.t) (t : num) :
  isFinite (azimuth pos) = false \/ isFinite (altitude pos) = false ->
  let st := mkRefs (Some current) base dir in
  Vector3.x (sunDir (update st pos)) = NaN
  /\ Vector3.z (sunDir (update st pos)) = NaN
  /\ panelRef (update st pos) = Some current
  /\ panelRef (useFrame sun (update st pos) t) = Some NaN_quaternion
  /\ panelRef (useFrame spin (update st pos) t) = panelRef (useFrame spin st t).
Proof.
  intros H. cbn zeta.
  destruct (direction_not_finite pos H) as (Ex & Ez & _).
  unfold update; cbn [panelRef baseQuat sunDir].
  split; [exact Ex|]. split; [exact Ez|]. split; [reflexivity|].
  split; [now apply tracking_frame_NaN | reflexivity].
Qed.

Lemma non_finite_angles_reach_orientation_witness :
  (isFinite PInf = false \/ isFinite 0 = false)
  /\ panelRef
       (useFrame sun
          (update (mkRefs (Some Quaternion.identity) Quaternion.identity
                     (Vector3.mk 0 1 0))
             {| azimuth := PInf; altitude := 0 |}) 0)
     = Some NaN_quaternion.
Proof.
  assert (H : isFinite PInf = false \/ isFinite 0 = false) by (left; reflexivity).
  split; [exact H|].
  exact (proj1 (proj2 (proj2 (proj2
           (non_finite_angles_reach_orientation
              {| azimuth := PInf; altitude := 0 |}
              Quaternion.identity Quaternion.identity (Vector3.mk 0 1 0) 0 H))))).
Defined.

(** * Further properties of the source *)

(** ** The tracking target and the sun angles *)

Lemma tan_shift_PI (a : R) : cos a <> 0%R -> tan (a + PI) = tan a.
Proof.
  intros H. unfold tan. rewrite neg_sin, neg_cos. field. exact H.
Qed.

(** [Math.atan2] recovers the angle of a point given in polar form. *)
Lemma Ratan2_polar (r a : R) :
  (0 < r)%R -> (- PI < a <= PI)%R ->
  Math.Ratan2 (sin a * r) (cos a * r) = a.
Proof.
  intros Hr [Ha1 Ha2]. pose proof PI_RGT_0 as Hpi. unfold Math.Ratan2.
  destruct (Rlt_dec a (- (PI / 2))) as [Hlow | Hlow].
  - (* third quadrant *)
    assert (Hc : (cos a < 0)%R).
    { rewrite <- cos_neg. apply cos_lt_0; lra. }
    assert (Hs : (sin a < 0)%R) by (apply sin_lt_0_var; lra).
    rewrite Rltb_false, Rltb_true, Rleb_false by nra.
    replace (sin a * r / (cos a * r))%R with (tan a) by (unfold tan; field; lra).
    rewrite <- tan_shift_PI by lra. rewrite atan_tan by lra. ring.
  - destruct (Rle_lt_or_eq_dec (- (PI / 2)) a) as [Hin | Heq]; [lra | |].
    + destruct (Rlt_dec a (PI / 2)) as [Hmid | Hhigh].
      * (* right half plane *)
        assert (Hc : (0 < cos a)%R) by (apply cos_gt_0; lra).
        rewrite Rltb_true by nra.
        replace (sin a * r / (cos a * r))%R with (tan a) by (unfold tan; field; lra).
        apply atan_tan; lra.
      * destruct (Rle_lt_or_eq_dec (PI / 2) a) as [Hup | Heq]; [lra | |].
        -- (* second quadrant *)
           assert (Hc : (cos a < 0)%R) by (apply cos_lt_0; lra).
           assert (Hs : (0 <= sin a)%R) by (apply sin_ge_0; lra).
           rewrite Rltb_false, Rltb_true, Rleb_true by nra.
           replace (sin a * r / (cos a * r))%R with (tan (a - PI + PI))
             by (replace (a - PI + PI)%R with a by ring; unfold tan; field; lra).
           rewrite tan_shift_PI.
           ++ rewrite atan_tan by lra. ring.
           ++ replace (a - PI)%R with (- (PI - a))%R by ring.
              rewrite cos_neg.
              assert (0 < cos (PI - a))%R; [|lra].
              destruct (Req_dec_T a PI) as [-> | Hne].
              ** replace (PI - PI)%R with 0%R by ring. rewrite cos_0. lra.
              ** apply cos_gt_0; lra.
        -- (* straight up *)
           subst a. rewrite cos_PI2, sin_PI2.
           rewrite !Rltb_false by lra. rewrite Rltb_true by lra. reflexivity.
    + (* straight down *)
      subst a. rewrite cos_neg, sin_neg, cos_PI2, sin_PI2.
      rewrite !Rltb_false by lra. rewrite Rltb_true by lra. reflexivity.
Qed.

Lemma direction_hypot (a h : R) :
  (0 <= cos h)%R ->
  sqrt (sin a * cos h * (sin a * cos h) + cos a * cos h * (cos a * cos h)) = cos h.
Proof.
  intros Hc. pose proof (sin2_cos2 a) as Ha. unfold Rsqr in Ha.
  replace (sin a * cos h * (sin a * cos h) + cos a * cos h * (cos a * cos h))%R
    with ((sin a * sin a + cos a * cos a) * Rsqr (cos h))%R by (unfold Rsqr; ring).
  rewrite Ha, Rmult_1_l. now apply sqrt_Rsqr.
Qed.

(** X1: the tracking target undoes the direction computation.  For an
    azimuth in (-PI, PI] and an altitude strictly between -PI/2 and PI/2,
    the yaw target computed from the stored direction is the azimuth and
    the pitch target is the altitude. *)
Theorem sun_angles_round_trip (a h : R) :
  (- PI < a <= PI)%R -> (- (PI / 2) < h < PI / 2)%R ->
  let dir := evaluateSunDirection {| azimuth := a; altitude := h |} in
  yawTarget dir = Fin a /\ pitchTarget dir = Fin h.
Proof.
  intros Ha Hh. cbn zeta. rewrite evaluateSunDirection_fin.
  assert (Hc : (0 < cos h)%R) by (apply cos_gt_0; lra).
  unfold yawTarget, pitchTarget; cbn [Vector3.x Vector3.y Vector3.z].
  rewrite hypot_fin, !atan2_fin, direction_hypot by lra.
  split; f_equal; [now apply Ratan2_polar | now apply Ratan2_tan].
Qed.

Lemma sun_angles_round_trip_witness :
  (- PI < 2 <= PI)%R /\ (- (PI / 2) < 1 < PI / 2)%R
  /\ yawTarget (evaluateSunDirection {| azimuth := 2; altitude := 1 |}) = Fin 2
  /\ pitchTarget (evaluateSunDirection {| azimuth := 2; altitude := 1 |}) = Fin 1.
Proof.
  assert (Ha : (- PI < 2 <= PI)%R) by (pose proof PI_lower; lra).
  assert (Hh : (- (PI / 2) < 1 < PI / 2)%R) by (pose proof PI_lower; lra).
  split; [exact Ha|]. split; [exact Hh|].
  exact (sun_angles_round_trip 2 1 Ha Hh).
Defined.

(** X2: the clamped target is the sun position saturated at the
    mechanical limits.  For an azimuth in (-PI, PI] and an altitude
    strictly between -PI/2 and PI/2, the yaw is the azimuth when it lies
    within 170 degrees of zero and the nearer limit otherwise; the pitch
    is the altitude when that lies between 0 and 65 degrees, 65 degrees
    above that, and the 5 degree stow angle below the horizon. *)
Theorem tracking_follows_sun (a h : R) :
  (- PI < a <= PI)%R -> (- (PI / 2) < h < PI / 2)%R ->
  let dir := evaluateSunDirection {| azimuth := a; altitude := h |} in
  ((Rabs a <= 170 * (PI / 180))%R -> trackYaw dir = Fin a)
  /\ ((170 * (PI / 180) < a)%R -> trackYaw dir = MathUtils.degToRad 170)
  /\ ((a < - 170 * (PI / 180))%R -> trackYaw dir = MathUtils.degToRad (-170))
  /\ ((0 <= h <= 65 * (PI / 180))%R -> trackPitch dir = Fin h)
  /\ ((65 * (PI / 180) < h)%R -> trackPitch dir = MathUtils.degToRad 65)
  /\ ((h < 0)%R -> trackPitch dir = MathUtils.degToRad 5).
Proof.
  intros Ha Hh. cbn zeta. rewrite evaluateSunDirection_fin.
  assert (Hc : (0 < cos h)%R) by (apply cos_gt_0; lra).
  pose proof PI_RGT_0 as Hpi.
  rewrite trackYaw_fin, (Ratan2_polar (cos h) a Hc Ha), !degToRad_fin.
  split; [|split; [|split; [|split; [|split]]]].
  - intros H. f_equal. apply clamp_inside.
    unfold Rabs in H. destruct (Rcase_abs a); lra.
  - intros H. f_equal. rewrite Rmin_left by lra. apply Rmax_right; lra.
  - intros H. f_equal. rewrite Rmin_right by lra. apply Rmax_left; lra.
  - intros [H0 H1]. assert (Hs : (0 <= sin h)%R) by (apply sin_ge_0; lra).
    rewrite trackPitch_day, direction_hypot, Ratan2_tan by lra.
    f_equal. apply clamp_inside; lra.
  - intros H. assert (Hs : (0 <= sin h)%R) by (apply sin_ge_0; lra).
    rewrite trackPitch_day, direction_hypot, Ratan2_tan by lra.
    f_equal. rewrite Rmin_left by lra. apply Rmax_right; lra.
  - intros H. rewrite trackPitch_night by (apply sin_lt_0_var; lra).
    apply degToRad_fin.
Qed.

Lemma tracking_follows_sun_witness :
  (- PI < 3 <= PI)%R /\ (- (PI / 2) < 1 < PI / 2)%R
  /\ (170 * (PI / 180) < 3)%R /\ (0 <= 1 <= 65 * (PI / 180))%R
  /\ trackYaw (evaluateSunDirection {| azimuth := 3; altitude := 1 |})
     = MathUtils.degToRad 170
  /\ trackPitch (evaluateSunDirection {| azimuth := 3; altitude := 1 |}) = Fin 1.
Proof.
  pose proof PI_lower as Hl. pose proof PI_4 as Hu.
  assert (Hup : (PI < 315 / 100)%R).
  { pose proof (PI_2_3_7_ineq 1) as [_ H].
    unfold sum_f_R0, tg_alt, PI_2_3_7_tg, Ratan_seq in H. simpl in H. lra. }
  assert (Ha : (- PI < 3 <= PI)%R) by lra.
  assert (Hh : (- (PI / 2) < 1 < PI / 2)%R) by lra.
  assert (Hy : (170 * (PI / 180) < 3)%R) by lra.
  assert (Hp : (0 <= 1 <= 65 * (PI / 180))%R) by lra.
  repeat (split; [assumption|]).
  destruct (tracking_follows_sun 3 1 Ha Hh) as (_ & Y & _ & P & _ & _).
  split; [exact (Y Hy) | exact (P Hp)].
Defined.

(** ** Repeated tracking frames *)

Lemma PI_upper : (PI < 315 / 100)%R.
Proof.
  pose proof (PI_2_3_7_ineq 1) as [_ H].
  unfold sum_f_R0, tg_alt, PI_2_3_7_tg, Ratan_seq in H. simpl in H. lra.
Qed.

(** One [rotateTowards] step between unit quaternions: it stays when
    the angle is 0, lands on the target when the angle is within the
    step, and otherwise takes exactly the step off the angle. *)
Lemma rotateTowards_unit_step (p q : R4) (step : R) :
  dot4 p p = 1%R -> dot4 q q = 1%R -> (3 / 100000000 <= step)%R ->
  let A := (2 * acos (Rabs (dot4 p q)))%R in
  (A = 0%R /\ Quaternion.rotateTowards (quat p) (quat q) (Fin step) = quat p)
  \/ ((0 < A <= step)%R
      /\ Quaternion.rotateTowards (quat p) (quat q) (Fin step) = quat q)
  \/ ((step < A)%R
      /\ exists r : R4,
           Quaternion.rotateTowards (quat p) (quat q) (Fin step) = quat r
           /\ dot4 r r = 1%R
           /\ (2 * acos (Rabs (dot4 r q)) = A - step)%R
           /\ (2 * acos (Rabs (dot4 p r)) = step)%R).
Proof.
  intros Hp Hq Hstep. cbn zeta. unfold Quaternion.rotateTowards.
  rewrite (angleTo_quat p q Hp Hq).
  pose proof (dot4_bound p q Hp Hq) as Hb.
  assert (Hc01 : (0 <= Rabs (dot4 p q) <= 1)%R).
  { split; [apply Rabs_pos | apply Rabs_le; lra]. }
  pose proof (acos_bound (Rabs (dot4 p q))) as [Hth0 Hth1].
  set (th := acos (Rabs (dot4 p q))) in *.
  rewrite eq_fin.
  destruct (Req_dec_T (2 * th) 0) as [Hz | Hnz].
  - left. rewrite Reqb_true by exact Hz. now split.
  - right. rewrite Reqb_false by exact Hnz.
    rewrite div_fin, min_fin by exact Hnz.
    destruct (Rle_dec (2 * th) step) as [Hnear | Hfar].
    + left. split; [lra|].
      assert (Hmin : Rmin 1 (step / (2 * th)) = 1%R).
      { apply Rmin_left. apply Rmult_le_reg_r with (2 * th)%R; [lra|].
        unfold Rdiv. rewrite Rmult_assoc, Rinv_l by exact Hnz. lra. }
      rewrite Hmin. unfold Quaternion.slerp.
      now rewrite !eq_fin, Reqb_false, Reqb_true by lra.
    + right. split; [lra|].
      set (t := (step / (2 * th))%R).
      assert (Ht01 : (0 < t < 1)%R).
      { unfold t. split.
        - apply Rdiv_lt_0_compat; lra.
        - apply Rmult_lt_reg_r with (2 * th)%R; [lra|].
          unfold Rdiv. rewrite Rmult_assoc, Rinv_l by exact Hnz. lra. }
      rewrite (Rmin_right 1 t) by lra.
      assert (Hlt1 : (Rabs (dot4 p q) < 1)%R).
      { destruct (proj2 Hc01) as [Hlt | Heq]; [exact Hlt|].
        exfalso. apply Hnz. unfold th. rewrite Heq, acos_1. ring. }
      assert (Heps : (/ 2 ^ 52 < 1 - dot4 p q * dot4 p q)%R).
      { replace (dot4 p q * dot4 p q)%R with (Rabs (dot4 p q) * Rabs (dot4 p q))%R
          by (unfold Rabs; destruct (Rcase_abs (dot4 p q)); ring).
        apply (above_epsilon _ step); [lra | exact Hstep | fold th; lra]. }
      rewrite (slerp_quat p q t Hp Hq Ht01 Heps).
      destruct (slerpR_dots p q t Hp Hq Ht01 Hlt1) as (Hn & Hdq & Hdp).
      fold th in Hdq, Hdp.
      exists (slerpR p q t). split; [reflexivity|]. split; [exact Hn|].
      rewrite Hdq, Hdp, !acos_cos by nra.
      unfold t. split; field; lra.
Qed.

Lemma iter_rotateTowards (q : R4) (step : R) :
  dot4 q q = 1%R -> (3 / 100000000 <= step)%R ->
  forall (n : nat) (p : R4),
    dot4 p p = 1%R ->
    exists r : R4,
      Nat.iter n (fun c => Quaternion.rotateTowards c (quat q) (Fin step)) (quat p)
      = quat r
      /\ dot4 r r = 1%R
      /\ (((2 * acos (Rabs (dot4 r q)))%R = 0%R
           /\ (((2 * acos (Rabs (dot4 p q)))%R = 0%R /\ r = p)
               \/ ((2 * acos (Rabs (dot4 p q)))%R <> 0%R /\ r = q)))
          \/ (0 < 2 * acos (Rabs (dot4 r q))
               <= 2 * acos (Rabs (dot4 p q)) - INR n * step)%R).
Proof.
  intros Hq Hstep n p Hp. induction n as [|n IH].
  - exists p. split; [reflexivity|]. split; [exact Hp|].
    pose proof (acos_bound (Rabs (dot4 p q))) as [Hth0 _].
    destruct (Req_dec_T (2 * acos (Rabs (dot4 p q))) 0) as [Hz | Hnz].
    + left. split; [exact Hz|]. left. now split.
    + right. simpl. lra.
  - destruct IH as (r & Er & Hr & Hcase).
    rewrite Nat.iter_succ, Er, S_INR.
    destruct (rotateTowards_unit_step r q step Hr Hq Hstep)
      as [[Hz E] | [[Hnear E] | [Hfar (r' & E & Hr' & Hrem & _)]]].
    + exists r. split; [exact E|]. split; [exact Hr|].
      destruct Hcase as [Hdone | Hmove]; [now left | lra].
    + exists q. split; [exact E|]. split; [exact Hq|].
      left. rewrite Hq, Rabs_R1, acos_1. split; [ring|].
      destruct Hcase as [[Hz _] | Hmove]; [lra|].
      right. split; [|reflexivity].
      assert (0 <= INR n)%R by apply pos_INR. nra.
    + exists r'. split; [exact E|]. split; [exact Hr'|].
      destruct Hcase as [[Hz _] | Hmove]; [lra|].
      right. rewrite Hrem. lra.
Qed.

Lemma fold_sun_frames (base target : Quaternion.t) (dir : Vector3.t) :
  target
  = Quaternion.multiply base
      (Quaternion.setFromEuler (Euler.mk (trackPitch dir) (trackYaw dir) 0)) ->
  forall (ts : list num) (current : Quaternion.t),
    fold_left (useFrame sun) ts (mkRefs (Some current) base dir)
    = mkRefs
        (Some (Nat.iter (List.length ts)
                 (fun c => Quaternion.rotateTowards c target slewStep) current))
        base dir.
Proof.
  intros ->. induction ts as [|t ts IH]; intros current; [reflexivity|].
  cbn [fold_left List.length]. rewrite Nat.iter_succ_r.
  unfold useFrame at 2; cbn [panelRef baseQuat sunDir]. apply IH.
Qed.

(** X3: with the stored direction unchanged, tracking frames reach the
    target in at most 158 frames.  From a unit orientation and a unit
    rest pose, after any 158 or more tracking frames the orientation is
    at angle 0 from the clamped target: it is the target itself, or the
    start orientation when that was already at angle 0; and a further
    tracking frame changes nothing. *)
Theorem tracking_converges
  (current base : Quaternion.t) (x y z : R) (ts : list num) :
  Quaternion.length current = Fin 1 ->
  Quaternion.length base = Fin 1 ->
  (158 <= List.length ts)%nat ->
  let dir := Vector3.mk x y z in
  let qFinal :=
    Quaternion.multiply base
      (Quaternion.setFromEuler (Euler.mk (trackPitch dir) (trackYaw dir) 0)) in
  let st := fold_left (useFrame sun) ts (mkRefs (Some current) base dir) in
  exists q : Quaternion.t,
    panelRef st = Some q
    /\ Quaternion.angleTo q qFinal = Fin 0
    /\ (q = qFinal \/ (Quaternion.angleTo current qFinal = Fin 0 /\ q = current))
    /\ forall t : num, useFrame sun st t = st.
Proof.
  intros Hc Hb Hlen. cbn zeta.
  pose proof (tracking_target_unit base x y z Hb) as Ht.
  set (qFinal := Quaternion.multiply base _) in *.
  rewrite (fold_sun_frames base qFinal (Vector3.mk x y z) eq_refl).
  destruct (unit_length_finite _ Hc) as (p & -> & Hp).
  destruct (unit_length_finite _ Ht) as (q & Eq & Hq).
  rewrite Eq in *.
  assert (Hstep : (3 / 100000000 <= 2 / 100)%R) by lra.
  destruct (iter_rotateTowards q (2 / 100) Hq Hstep (List.length ts) p Hp)
    as (r & Er & Hr & Hcase).
  change slewStep with (Fin (2 / 100)). rewrite Er.
  assert (Hdone : (2 * acos (Rabs (dot4 r q)))%R = 0%R
                  /\ (((2 * acos (Rabs (dot4 p q)))%R = 0%R /\ r = p)
                      \/ ((2 * acos (Rabs (dot4 p q)))%R <> 0%R /\ r = q))).
  { destruct Hcase as [Hdone | Hmove]; [exact Hdone | exfalso].
    assert (Hth : (acos (Rabs (dot4 p q)) <= PI / 2)%R).
    { pose proof (dot4_bound p q Hp Hq) as Hd.
      assert (Habs : (Rabs (dot4 p q) <= 1)%R) by (apply Rabs_le; lra).
      destruct Habs as [Hlt | ->].
      - apply acos_quadrant. split; [apply Rabs_pos | exact Hlt].
      - rewrite acos_1. pose proof PI_RGT_0. lra. }
    pose proof PI_upper as Hpi.
    assert (Hn : (158 <= INR (List.length ts))%R).
    { replace 158%R with (INR 158) by (simpl; lra). now apply le_INR. }
    nra. }
  destruct Hdone as [Hz Hwhich].
  exists (quat r). split; [reflexivity|].
  split; [now rewrite (angleTo_quat r q Hr Hq), Hz|].
  split.
  - destruct Hwhich as [[Hz0 ->] | [_ ->]]; [right | now left].
    split; [now rewrite (angleTo_quat p q Hp Hq), Hz0 | reflexivity].
  - intros t. unfold useFrame; cbn [panelRef baseQuat sunDir].
    fold qFinal. rewrite Eq. change slewStep with (Fin (2 / 100)).
    destruct (rotateTowards_unit_step r q (2 / 100) Hr Hq Hstep)
      as [[_ E] | [[Hnear _] | [Hfar _]]]; [now rewrite E | lra | lra].
Qed.

Lemma tracking_converges_witness :
  Quaternion.length Quaternion.identity = Fin 1
  /\ (158 <= List.length (List.repeat (Fin 0) 158))%nat
  /\ exists q : Quaternion.t,
       panelRef
         (fold_left (useFrame sun) (List.repeat (Fin 0) 158)
            (mkRefs (Some Quaternion.identity) Quaternion.identity
               (Vector3.mk 0 1 0)))
       = Some q
       /\ Quaternion.angleTo q
            (Quaternion.multiply Quaternion.identity
               (Quaternion.setFromEuler
                  (Euler.mk (trackPitch (Vector3.mk 0 1 0))
                     (trackYaw (Vector3.mk 0 1 0)) 0)))
          = Fin 0.
Proof.
  assert (Hlen : (158 <= List.length (List.repeat (Fin 0) 158))%nat)
    by (rewrite List.repeat_length; lia).
  split; [exact identity_unit|]. split; [exact Hlen|].
  destruct (tracking_converges Quaternion.identity Quaternion.identity 0 1 0
              (List.repeat (Fin 0) 158) identity_unit identity_unit Hlen)
    as (q & E & Hangle & _).
  exists q. split; [exact E | exact Hangle].
Defined.

(** ** The session invariant *)

Lemma finite_value (a : num) : isFinite a = true -> exists r : R, a = Fin r.
Proof. destruct a; try discriminate. intros _. now eexists. Qed.

Lemma rotateTowards_unit (current target : Quaternion.t) :
  Quaternion.length current = Fin 1 ->
  Quaternion.length target = Fin 1 ->
  Quaternion.length (Quaternion.rotateTowards current target slewStep) = Fin 1.
Proof.
  intros Hc Ht.
  destruct (unit_length_finite _ Hc) as (p & -> & Hp).
  destruct (unit_length_finite _ Ht) as (q & -> & Hq).
  assert (Hstep : (3 / 100000000 <= 2 / 100)%R) by lra.
  change slewStep with (Fin (2 / 100)).
  destruct (rotateTowards_unit_step p q (2 / 100) Hp Hq Hstep)
    as [[_ E] | [[_ E] | [_ (r & E & Hr & _)]]]; rewrite E, length_quat.
  - now rewrite Hp, sqrt_1.
  - now rewrite Hq, sqrt_1.
  - now rewrite Hr, sqrt_1.
Qed.

Lemma unit_vector_finite (v : Vector3.t) :
  Vector3.length v = Fin 1 -> exists x y z : R, v = Vector3.mk x y z.
Proof.
  destruct v as [x y z]. intros H.
  destruct x as [x| | |], y as [y| | |], z as [z| | |];
    try (exfalso; revert H; unfold Vector3.length; qproj;
         unfold jmul, jadd, Math.sqrt; simpl; discriminate).
  now exists x, y, z.
Qed.

Lemma spin_frame_unit (base : Quaternion.t) (t : R) :
  Quaternion.length base = Fin 1 ->
  Quaternion.length
    (Quaternion.multiply base
       (Quaternion.setFromEuler (Euler.mk (spinPitch (Fin t)) (spinYaw (Fin t)) 0)))
  = Fin 1.
Proof.
  intros Hb. destruct (unit_length_finite _ Hb) as (b & -> & Hb1).
  rewrite spinPitch_fin, spinYaw_fin.
  destruct (setFromEuler_unit
              ((8 + (55 - 8) * ((sin (t * (PI * 2 / 8)) + 1) / 2)) * (PI / 180))
              (sin (t * (PI * 2 / 8) * (35 / 100)) * 30 * (PI / 180)) 0)
    as (e & -> & He).
  now apply multiply_unit.
Qed.

Lemma handle_well_formed (s : Session) (e : Event) :
  well_formed s -> finite_event e ->
  well_formed (handle s e)
  /\ baseQuat (refsOf (handle s e)) = baseQuat (refsOf s).
Proof.
  intros (Hb & (current & Ec & Hc) & Hd) He.
  destruct s as [m [pr base dir]]. cbn [refsOf panelRef baseQuat sunDir] in *.
  subst pr. destruct e as [elapsed | pos |]; cbn [handle finite_event] in *.
  - destruct (finite_value _ He) as (t & ->).
    destruct m; unfold useFrame, well_formed;
      cbn [refsOf mode panelRef baseQuat sunDir].
    + destruct (unit_vector_finite _ Hd) as (x & y & z & ->).
      repeat split; try assumption.
      eexists. split; [reflexivity|].
      apply rotateTowards_unit; [exact Hc | now apply tracking_target_unit].
    + repeat split; try assumption.
      eexists. split; [reflexivity|]. now apply spin_frame_unit.
  - destruct He as [Ha Hh].
    destruct pos as [az alt]; cbn [azimuth altitude] in *.
    destruct (finite_value _ Ha) as (a & ->).
    destruct (finite_value _ Hh) as (h & ->).
    unfold well_formed, update; cbn [refsOf mode panelRef baseQuat sunDir].
    repeat split; try assumption.
    + now exists current.
    + rewrite evaluateSunDirection_fin. unfold Vector3.length; qproj.
      autorewrite with fin. rewrite direction_norm, sqrt_fin by lra.
      now rewrite sqrt_1.
  - unfold well_formed; cbn [refsOf mode panelRef baseQuat sunDir].
    repeat split; try assumption. now exists current.
Qed.

(** X4: whatever the order of frame callbacks, sun-position updates
    with finite angles and clicks on the mode button, a mounted session
    that starts with a unit rest pose, a unit orientation and a unit sun
    direction keeps all three, and its rest pose never changes. *)
Theorem session_stays_well_formed (s : Session) (events : list Event) :
  well_formed s ->
  Forall finite_event events ->
  well_formed (fold_left handle events s)
  /\ baseQuat (refsOf (fold_left handle events s)) = baseQuat (refsOf s).
Proof.
  intros Hs Hev. revert s Hs.
  induction Hev as [|e events He _ IH]; intros s Hs; [now split|].
  cbn [fold_left].
  destruct (handle_well_formed s e Hs He) as [Hs' Hb].
  destruct (IH _ Hs') as [Hw Hb']. split; [exact Hw|]. now rewrite Hb'.
Qed.

Lemma initial_direction_unit : Vector3.length (Vector3.mk 0 1 0) = Fin 1.
Proof.
  unfold Vector3.length; qproj. autorewrite with fin.
  replace (0 * 0 + 1 * 1 + 0 * 0)%R with 1%R by ring.
  rewrite sqrt_fin by lra. now rewrite sqrt_1.
Qed.

Lemma session_stays_well_formed_witness :
  let s := mkSession spin (mount initial Quaternion.identity) in
  let events :=
    ModeClick :: SunTick {| azimuth := 0; altitude := 1 |} :: FrameTick 0 :: nil in
  well_formed s /\ Forall finite_event events
  /\ well_formed (fold_left handle events s).
Proof.
  cbn zeta.
  assert (Hs : well_formed (mkSession spin (mount initial Quaternion.identity))).
  { unfold well_formed; cbn [refsOf mount initial panelRef baseQuat sunDir].
    split; [exact identity_unit|]. split; [|exact initial_direction_unit].
    exists Quaternion.identity. split; [reflexivity | exact identity_unit]. }
  assert (He : Forall finite_event
                 (ModeClick :: SunTick {| azimuth := 0; altitude := 1 |}
                  :: FrameTick 0 :: nil)).
  { repeat constructor. }
  split; [exact Hs|]. split; [exact He|].
  exact (proj1 (session_stays_well_formed _ _ Hs He)).
Defined.

(** ** The sky position and the two night tests *)

(** X5: for finite angles the sky anchor computed by [App]'s update is
    the direction stored by [SolarPanelModel]'s update scaled by 100, and
    its length is 100. *)
Theorem sky_is_scaled_direction (a h : R) :
  let pos := {| azimuth := a; altitude := h |} in
  App.skyPos (App.update pos)
  = Vector3.multiplyScalar (evaluateSunDirection pos) 100
  /\ Vector3.length (App.skyPos (App.update pos)) = Fin 100.
Proof.
  cbn zeta.
  assert (E : App.skyPos (App.update {| azimuth := a; altitude := h |})
              = Vector3.mk (sin a * cos h * 100)%R (sin h * 100)%R
                  (cos a * cos h * 100)%R).
  { unfold App.update. cbn [azimuth altitude].
    destruct (App.isDay _); cbn [App.skyPos]; now autorewrite with fin. }
  rewrite E, evaluateSunDirection_fin. split.
  - unfold Vector3.multiplyScalar; qproj. now autorewrite with fin.
  - unfold Vector3.length; qproj. autorewrite with fin.
    replace (sin a * cos h * 100 * (sin a * cos h * 100)
             + sin h * 100 * (sin h * 100)
             + cos a * cos h * 100 * (cos a * cos h * 100))%R
      with (Rsqr 100 * (sin a * cos h * (sin a * cos h) + sin h * sin h
                       + cos a * cos h * (cos a * cos h)))%R
      by (unfold Rsqr; ring).
    rewrite direction_norm, Rmult_1_r, sqrt_fin by apply Rle_0_sqr.
    rewrite sqrt_Rsqr by lra. reflexivity.
Qed.

(** X6: the panel and the lighting use different night tests.  For an
    altitude strictly between -PI and PI the panel stows exactly when the
    altitude is negative, whereas the lighting is on its day preset
    exactly above 0.05 rad; so a stowed panel always comes with the
    night lighting, day lighting always with a tracking panel, and for
    altitudes from 0 to 0.05 the panel tracks under the night lighting. *)
Theorem stow_and_lighting_thresholds (a h : R) :
  (- PI < h < PI)%R ->
  let pos := {| azimuth := a; altitude := h |} in
  let dir := evaluateSunDirection pos in
  (isNight dir = true <-> (h < 0)%R)
  /\ (isNight dir = true -> App.isDay pos = false)
  /\ (App.isDay pos = true -> isNight dir = false)
  /\ ((0 <= h <= 5 / 100)%R -> isNight dir = false /\ App.isDay pos = false).
Proof.
  intros [H1 H2]. cbn zeta. rewrite evaluateSunDirection_fin, isDay_fin.
  unfold isNight; cbn [Vector3.y]. rewrite lt_fin.
  assert (Hiff : Rltb (sin h) 0 = true <-> (h < 0)%R).
  { rewrite Rltb_spec. split.
    - intros Hs. destruct (Rlt_dec h 0) as [Hn | Hp]; [exact Hn | exfalso].
      assert (0 <= sin h)%R by (apply sin_ge_0; lra). lra.
    - intros Hn. now apply sin_lt_0_var. }
  split; [exact Hiff|]. split; [|split].
  - intros Hn. apply Hiff in Hn. apply Rltb_false. lra.
  - intros Hd. apply Rltb_spec in Hd. apply Rltb_false. apply sin_ge_0; lra.
  - intros [H0 H5]. split; apply Rltb_false; [apply sin_ge_0; lra | lra].
Qed.

Lemma stow_and_lighting_thresholds_witness :
  (- PI < 3 / 100 < PI)%R /\ (0 <= 3 / 100 <= 5 / 100)%R
  /\ isNight (evaluateSunDirection {| azimuth := 0; altitude := (3 / 100)%R |})
     = false
  /\ App.isDay {| azimuth := 0; altitude := (3 / 100)%R |} = false.
Proof.
  assert (H : (- PI < 3 / 100 < PI)%R) by (pose proof PI_lower; lra).
  assert (H' : (0 <= 3 / 100 <= 5 / 100)%R) by lra.
  split; [exact H|]. split; [exact H'|].
  exact (proj2 (proj2 (proj2 (stow_and_lighting_thresholds 0 (3 / 100) H))) H').
Defined.

(** X7: a non-finite altitude still selects a preset.  With a [NaN]
    or negative infinite altitude the lighting update selects the night
    preset, with a positive infinite altitude the day preset, and in all
    three cases every component of the sky anchor is [NaN]. *)
Theorem lighting_with_non_finite_altitude (a : num) :
  let sky := Vector3.mk NaN NaN NaN in
  App.update {| azimuth := a; altitude := NaN |}
  = App.mkLighting sky "#05070d" "night" (5 / 10)%R (15 / 100)%R
  /\ App.update {| azimuth := a; altitude := NInf |}
     = App.mkLighting sky "#05070d" "night" (5 / 10)%R (15 / 100)%R
  /\ App.update {| azimuth := a; altitude := PInf |}
     = App.mkLighting sky "#b8d0ff" "sunset" (18 / 10)%R (35 / 100)%R.
Proof.
  cbn zeta. unfold App.update, App.isDay; cbn [azimuth altitude].
  change (Math.cos NaN) with NaN. change (Math.cos NInf) with NaN.
  change (Math.cos PInf) with NaN. change (Math.sin NaN) with NaN.
  change (Math.sin NInf) with NaN. change (Math.sin PInf) with NaN.
  autorewrite with nan. repeat split.
Qed.

(** ** Placing and framing the loaded model *)

Lemma maxDimOf_fin (sx sy sz : R) :
  maxDimOf (Vector3.mk sx sy sz) = Fin (RmaxDim sx sy sz).
Proof.
  unfold maxDimOf, RmaxDim; qproj. rewrite !max_fin.
  unfold jor, Reqb. now destruct (Req_dec_T (Rmax (Rmax sx sy) sz) 0).
Qed.

Lemma RmaxDim_pos (sx sy sz : R) :
  (0 <= sx)%R -> (0 < RmaxDim sx sy sz)%R.
Proof.
  intros H. unfold RmaxDim.
  pose proof (Rmax_l (Rmax sx sy) sz). pose proof (Rmax_l sx sy).
  destruct (Req_dec_T (Rmax (Rmax sx sy) sz) 0); lra.
Qed.

Lemma RmaxDim_largest (sx sy sz : R) :
  (0 < Rmax (Rmax sx sy) sz)%R -> RmaxDim sx sy sz = Rmax (Rmax sx sy) sz.
Proof.
  intros H. unfold RmaxDim.
  destruct (Req_dec_T (Rmax (Rmax sx sy) sz) 0); [lra | reflexivity].
Qed.

Section FiniteBox.

Variables x0 y0 z0 x1 y1 z1 : R.
Hypothesis Hx : (x0 <= x1)%R.
Hypothesis Hy : (y0 <= y1)%R.
Hypothesis Hz : (z0 <= z1)%R.

Lemma boxR_not_empty : Box3.isEmpty (boxR x0 y0 z0 x1 y1 z1) = false.
Proof.
  unfold Box3.isEmpty, boxR; cbn [Box3.min Box3.max]; qproj.
  now rewrite !lt_fin, !Rltb_false.
Qed.

Lemma boxR_size :
  Box3.getSize (boxR x0 y0 z0 x1 y1 z1)
  = Vector3.mk (x1 - x0)%R (y1 - y0)%R (z1 - z0)%R.
Proof.
  unfold Box3.getSize. rewrite boxR_not_empty.
  unfold Vector3.sub, boxR; cbn [Box3.min Box3.max]; qproj.
  now autorewrite with fin.
Qed.

Lemma boxR_center :
  Box3.getCenter (boxR x0 y0 z0 x1 y1 z1)
  = Vector3.mk ((x0 + x1) * (5 / 10))%R ((y0 + y1) * (5 / 10))%R
      ((z0 + z1) * (5 / 10))%R.
Proof.
  unfold Box3.getCenter. rewrite boxR_not_empty.
  unfold Vector3.multiplyScalar, Vector3.add, boxR; cbn [Box3.min Box3.max]; qproj.
  now autorewrite with fin.
Qed.

End FiniteBox.

(** X8: [centerScaleGround] scales the object so that the largest side
    of its bounding box becomes the target size.  For a box with finite
    corners the three scale factors are equal to targetSize / L, where L
    is the largest side; when every side is 0, and when the box is empty,
    the factor is the target size itself instead of a division by 0. *)
Theorem centerScaleGround_scale
  (setFromObject : Object3D -> Box3.t) (object : Object3D)
  (x0 y0 z0 x1 y1 z1 targetSize : R) :
  let largest := Rmax (Rmax (x1 - x0) (y1 - y0)) (z1 - z0) in
  let scaled := centerScaleGround setFromObject object (Fin targetSize) in
  (setFromObject object = boxR x0 y0 z0 x1 y1 z1 ->
   (x0 <= x1)%R -> (y0 <= y1)%R -> (z0 <= z1)%R ->
   exists s : R,
     scale scaled = Vector3.mk s s s
     /\ ((0 < largest)%R -> (s * largest)%R = targetSize)
     /\ (largest = 0%R -> s = targetSize))
  /\ (Box3.isEmpty (setFromObject object) = true ->
      scale scaled = Vector3.mk targetSize targetSize targetSize).
Proof.
  cbn zeta. split.
  - intros Hbox Hx Hy Hz.
    exists (targetSize / RmaxDim (x1 - x0) (y1 - y0) (z1 - z0))%R.
    assert (Hpos : (0 < RmaxDim (x1 - x0) (y1 - y0) (z1 - z0))%R)
      by (apply RmaxDim_pos; lra).
    split; [|split].
    + unfold centerScaleGround; cbn [scale].
      rewrite Hbox, (boxR_size x0 y0 z0 x1 y1 z1 Hx Hy Hz), maxDimOf_fin.
      rewrite div_fin by lra. reflexivity.
    + intros Hl. rewrite RmaxDim_largest by exact Hl. field. lra.
    + intros Hl. unfold RmaxDim. rewrite Hl.
      destruct (Req_dec_T 0 0) as [_ | Hne]; [field | now contradiction Hne].
  - intros Hempty. unfold centerScaleGround; cbn [scale].
    unfold Box3.getSize. rewrite Hempty.
    change (Vector3.mk 0 0 0) with (Vector3.mk 0%R 0%R 0%R).
    rewrite maxDimOf_fin. unfold RmaxDim.
    rewrite !(Rmax_left 0 0) by lra.
    destruct (Req_dec_T 0 0) as [_ | Hne]; [|now contradiction Hne].
    rewrite div_fin by lra. unfold Vector3.setScalar.
    f_equal; f_equal; field.
Qed.

Lemma centerScaleGround_scale_witness :
  let oracle := fun _ : Object3D => boxR 0 0 0 1 3 2 in
  let object :=
    mkObject "root" false
      (mkMaterial LoadedMaterial None None None None None None None None None)
      false false (Vector3.mk 0 0 0) (Vector3.mk 1 1 1) nil in
  oracle object = boxR 0 0 0 1 3 2
  /\ (0 <= 1)%R /\ (0 <= 3)%R /\ (0 <= 2)%R
  /\ exists s : R,
       scale (centerScaleGround oracle object (Fin 6)) = Vector3.mk s s s
       /\ ((0 < Rmax (Rmax (1 - 0) (3 - 0)) (2 - 0))%R ->
           (s * Rmax (Rmax (1 - 0) (3 - 0)) (2 - 0))%R = 6%R).
Proof.
  cbn zeta.
  assert (H1 : (0 <= 1)%R) by lra. assert (H3 : (0 <= 3)%R) by lra.
  assert (H2 : (0 <= 2)%R) by lra.
  split; [reflexivity|]. repeat (split; [assumption|]).
  destruct (proj1 (centerScaleGround_scale (fun _ => boxR 0 0 0 1 3 2)
              (mkObject "root" false
                 (mkMaterial LoadedMaterial None None None None None None None
                    None None)
                 false false (Vector3.mk 0 0 0) (Vector3.mk 1 1 1) nil)
              0 0 0 1 3 2 6) eq_refl H1 H3 H2)
    as (s & Es & Hs & _).
  exists s. split; [exact Es | exact Hs].
Defined.


Lemma sample_bounds_object : sample_bounds sample_object = boxR 1 1 1 3 5 7.
Proof. cbn. unfold boxR. repeat f_equal; lra. Qed.


Lemma tan_fin (r : R) : cos r <> 0%R -> Math.tan (Fin r) = Fin (tan r).
Proof. intros H. unfold Math.tan. rewrite sin_fin, cos_fin. now apply div_fin. Qed.

(** X10: without registered controls, [frameCameraToObject] puts the
    camera level with the centre of the bounding box, at a distance d
    along the x axis.  For a box with finite corners, a field of view
    strictly between 0 and 180 degrees and a factor that is not negative,
    d is not negative and equals L / (2 tan (fov/2)) times the factor, L
    being the largest side of the box (or 1 when every side is 0); the
    field of view and the clipping planes are left as they are. *)
Theorem frameCameraToObject_camera
  (setFromObject : Object3D -> Box3.t) (camera : Camera) (object : Object3D)
  (x0 y0 z0 x1 y1 z1 f factor : R) :
  (x0 <= x1)%R -> (y0 <= y1)%R -> (z0 <= z1)%R ->
  setFromObject object = boxR x0 y0 z0 x1 y1 z1 ->
  fov camera = Fin f -> (0 < f < 180)%R -> (0 <= factor)%R ->
  let L := RmaxDim (x1 - x0) (y1 - y0) (z1 - z0) in
  let camera' :=
    fst (frameCameraToObject setFromObject camera None object (Fin factor)) in
  exists d : R,
    cameraPosition camera'
    = Vector3.mk ((x0 + x1) * (5 / 10) + d)%R ((y0 + y1) * (5 / 10) + 0)%R
        ((z0 + z1) * (5 / 10) + 0)%R
    /\ (0 <= d)%R
    /\ (d * (2 * tan (f * PI / 180 / 2)) = L * factor)%R
    /\ fov camera' = fov camera
    /\ near camera' = near camera
    /\ far camera' = far camera.
Proof.
  intros Hx Hy Hz Hbox Hfov Hf Hk. cbn zeta.
  pose proof PI_RGT_0 as Hpi.
  assert (Hang : (0 < f * PI / 180 / 2 < PI / 2)%R).
  { split; [nra|]. apply Rmult_lt_reg_r with (360 / PI)%R.
    - apply Rdiv_lt_0_compat; lra.
    - replace (f * PI / 180 / 2 * (360 / PI))%R with f by (field; lra).
      replace (PI / 2 * (360 / PI))%R with 180%R by (field; lra). lra. }
  assert (Hcos : (0 < cos (f * PI / 180 / 2))%R) by (apply cos_gt_0; lra).
  assert (Htan : (0 < tan (f * PI / 180 / 2))%R) by (apply tan_gt_0; lra).
  assert (HL : (0 < RmaxDim (x1 - x0) (y1 - y0) (z1 - z0))%R)
    by (apply RmaxDim_pos; lra).
  set (L := RmaxDim (x1 - x0) (y1 - y0) (z1 - z0)) in *.
  exists (L / (2 * tan (f * PI / 180 / 2)) * factor)%R.
  unfold frameCameraToObject; cbn [fst cameraPosition fov near far].
  rewrite Hbox, (boxR_size x0 y0 z0 x1 y1 z1 Hx Hy Hz),
    (boxR_center x0 y0 z0 x1 y1 z1 Hx Hy Hz), maxDimOf_fin, Hfov.
  fold L. unfold Math.PI. autorewrite with fin.
  rewrite !div_fin by lra. rewrite tan_fin by lra.
  autorewrite with fin. rewrite div_fin by lra. autorewrite with fin.
  assert (Hq : (0 < L / (2 * tan (f * PI / 180 / 2)))%R)
    by (apply Rdiv_lt_0_compat; lra).
  rewrite (Rabs_right (L / (2 * tan (f * PI / 180 / 2)))) by lra.
  unfold Vector3.add; qproj. autorewrite with fin.
  split; [reflexivity|]. split; [nra|]. split; [field; lra|]. now repeat split.
Qed.

Lemma frameCameraToObject_camera_witness :
  (1 <= 3)%R /\ (1 <= 5)%R /\ (1 <= 7)%R
  /\ sample_bounds sample_object = boxR 1 1 1 3 5 7
  /\ (0 < 50 < 180)%R /\ (0 <= 2)%R
  /\ exists d : R,
       cameraPosition
         (fst (frameCameraToObject sample_bounds
                 (mkCamera 50 (Vector3.mk 0 0 0) 1 100) None sample_object 2))
       = Vector3.mk ((1 + 3) * (5 / 10) + d)%R ((1 + 5) * (5 / 10) + 0)%R
           ((1 + 7) * (5 / 10) + 0)%R
       /\ (0 <= d)%R.
Proof.
  assert (H3 : (1 <= 3)%R) by lra. assert (H5 : (1 <= 5)%R) by lra.
  assert (H7 : (1 <= 7)%R) by lra.
  assert (Hf : (0 < 50 < 180)%R) by lra. assert (Hk : (0 <= 2)%R) by lra.
  repeat (split; [assumption|]).
  split; [exact sample_bounds_object|]. repeat (split; [assumption|]).
  destruct (frameCameraToObject_camera sample_bounds
              (mkCamera 50 (Vector3.mk 0 0 0) 1 100) sample_object
              1 1 1 3 5 7 50 2 H3 H5 H7 sample_bounds_object eq_refl Hf Hk)
    as (d & E & Hd & _).
  exists d. split; [exact E | exact Hd].
Defined.

(** X11: when controls are registered, [frameCameraToObject] aims them
    at the centre of the box and sets the zoom range to
    [0.6 L, min (6 L, 200)], L being the largest side of the box (or 1
    when every side is 0).  The upper end never exceeds 200, and the
    range is a proper one (lower end not above the upper end) exactly
    when L is at most 1000/3.  Without registered controls there are
    none afterwards. *)
Theorem frameCameraToObject_controls
  (setFromObject : Object3D -> Box3.t) (camera : Camera)
  (old : Controls) (object : Object3D)
  (x0 y0 z0 x1 y1 z1 : R) (factor : num) :
  (x0 <= x1)%R -> (y0 <= y1)%R -> (z0 <= z1)%R ->
  setFromObject object = boxR x0 y0 z0 x1 y1 z1 ->
  let L := RmaxDim (x1 - x0) (y1 - y0) (z1 - z0) in
  snd (frameCameraToObject setFromObject camera None object factor) = None
  /\ exists lo hi : R,
       snd (frameCameraToObject setFromObject camera (Some old) object factor)
       = Some (mkControls
                 (Vector3.mk ((x0 + x1) * (5 / 10))%R ((y0 + y1) * (5 / 10))%R
                    ((z0 + z1) * (5 / 10))%R)
                 (Fin lo) (Fin hi))
       /\ lo = (L * (6 / 10))%R
       /\ hi = Rmin (L * 6) 200
       /\ (hi <= 200)%R
       /\ ((lo <= hi)%R <-> (L <= 1000 / 3)%R).
Proof.
  intros Hx Hy Hz Hbox. cbn zeta. split; [reflexivity|].
  assert (HL : (0 < RmaxDim (x1 - x0) (y1 - y0) (z1 - z0))%R)
    by (apply RmaxDim_pos; lra).
  set (L := RmaxDim (x1 - x0) (y1 - y0) (z1 - z0)) in *.
  exists (L * (6 / 10))%R, (Rmin (L * 6) 200).
  unfold frameCameraToObject; cbn [snd].
  rewrite Hbox, (boxR_size x0 y0 z0 x1 y1 z1 Hx Hy Hz),
    (boxR_center x0 y0 z0 x1 y1 z1 Hx Hy Hz), maxDimOf_fin.
  fold L. autorewrite with fin. rewrite min_fin.
  split; [reflexivity|]. split; [reflexivity|]. split; [reflexivity|].
  split; [apply Rmin_r|].
  unfold Rmin. destruct (Rle_dec (L * 6) 200); split; intros; lra.
Qed.

Lemma frameCameraToObject_controls_witness :
  (1 <= 3)%R /\ (1 <= 5)%R /\ (1 <= 7)%R
  /\ sample_bounds sample_object = boxR 1 1 1 3 5 7
  /\ snd (frameCameraToObject sample_bounds
            (mkCamera 50 (Vector3.mk 0 0 0) 1 100) None sample_object 2)
     = None.
Proof.
  assert (H3 : (1 <= 3)%R) by lra. assert (H5 : (1 <= 5)%R) by lra.
  assert (H7 : (1 <= 7)%R) by lra.
  repeat (split; [assumption|]).
  split; [exact sample_bounds_object|].
  exact (proj1 (frameCameraToObject_controls sample_bounds
                  (mkCamera 50 (Vector3.mk 0 0 0) 1 100)
                  (mkControls (Vector3.mk 0 0 0) 0 0) sample_object
                  1 1 1 3 5 7 2 H3 H5 H7 sample_bounds_object)).
Defined.

(** X12: [FitOnceOnMount] frames the camera once.  While the group is
    not mounted the effect changes nothing, however often it runs; its
    first run with a mounted group sets the clipping planes to 0.1 and
    10000, frames that group with [frameCameraToObject] at factor 2 (the
    controls become those that the framing sets and, without registered
    controls, the camera is the framed camera) and marks the fit as done;
    and no later run of the effect, with or without a group, changes the
    camera or the controls again. *)
Theorem FitOnceOnMount_once
  (setFromObject : Object3D -> Box3.t) (st : FitState) (object : Object3D)
  (before after : list (option Object3D)) :
  didFit st = false ->
  Forall (fun targetRef => targetRef = None) before ->
  let waiting := fold_left (FitOnceOnMount setFromObject) before st in
  let fitted := FitOnceOnMount setFromObject waiting (Some object) in
  let camera :=
    mkCamera (fov (fitCamera st)) (cameraPosition (fitCamera st))
      (Fin (1 / 10)) (Fin 10000) in
  waiting = st
  /\ didFit fitted = true
  /\ near (fitCamera fitted) = Fin (1 / 10)
  /\ far (fitCamera fitted) = Fin 10000
  /\ fov (fitCamera fitted) = fov (fitCamera st)
  /\ fitControls fitted
     = snd (frameCameraToObject setFromObject camera (fitControls st) object 2)
  /\ (fitControls st = None ->
      fitCamera fitted
      = fst (frameCameraToObject setFromObject camera None object 2)
      /\ cameraPosition (fitCamera fitted)
         = Vector3.add (Box3.getCenter (setFromObject object))
             (Vector3.mk
                (Math.abs
                   (maxDimOf (Box3.getSize (setFromObject object))
                    / (2 * Math.tan (fov (fitCamera st) * Math.PI / 180 / 2)))
                 * 2)
                0 0)
      /\ fitControls fitted = None)
  /\ fold_left (FitOnceOnMount setFromObject) after fitted = fitted.
Proof.
  intros Hd Hbefore. cbn zeta.
  assert (Hwait : fold_left (FitOnceOnMount setFromObject) before st = st).
  { induction Hbefore as [|t l -> _ IH]; [reflexivity|].
    cbn [fold_left]. unfold FitOnceOnMount at 2. rewrite Hd. exact IH. }
  rewrite Hwait. split; [reflexivity|].
  assert (Hfit : didFit (FitOnceOnMount setFromObject st (Some object)) = true).
  { unfold FitOnceOnMount. now rewrite Hd. }
  split; [exact Hfit|].
  split; [unfold FitOnceOnMount; now rewrite Hd|].
  split; [unfold FitOnceOnMount; now rewrite Hd|].
  split; [unfold FitOnceOnMount; now rewrite Hd|].
  split; [unfold FitOnceOnMount; now rewrite Hd|].
  split.
  - intros Hnone. unfold FitOnceOnMount. rewrite Hd, Hnone.
    cbn [fitCamera fitControls]. now repeat split.
  - generalize dependent (FitOnceOnMount setFromObject st (Some object)).
    intros s Hs. induction after as [|t l IH]; [reflexivity|].
    cbn [fold_left]. unfold FitOnceOnMount at 2. rewrite Hs. exact IH.
Qed.

Lemma FitOnceOnMount_once_witness :
  let st := mkFitState false (mkCamera 50 (Vector3.mk 0 0 0) 1 100) None in
  didFit st = false
  /\ Forall (fun targetRef : option Object3D => targetRef = None) (None :: nil)
  /\ fitControls st = None
  /\ fitCamera (FitOnceOnMount sample_bounds st (Some sample_object))
     = fst (frameCameraToObject sample_bounds
              (mkCamera 50 (Vector3.mk 0 0 0) (Fin (1 / 10)) (Fin 10000))
              None sample_object 2)
  /\ fold_left (FitOnceOnMount sample_bounds) (None :: Some sample_object :: nil)
       (FitOnceOnMount sample_bounds st (Some sample_object))
     = FitOnceOnMount sample_bounds st (Some sample_object).
Proof.
  cbn zeta.
  assert (Hb : Forall (fun targetRef : option Object3D => targetRef = None)
                 (None :: nil)) by (repeat constructor).
  split; [reflexivity|]. split; [exact Hb|]. split; [reflexivity|].
  destruct (FitOnceOnMount_once sample_bounds
              (mkFitState false (mkCamera 50 (Vector3.mk 0 0 0) 1 100) None)
              sample_object nil (None :: Some sample_object :: nil)
              eq_refl (Forall_nil _))
    as (_ & _ & _ & _ & _ & _ & Hcam & Hlater).
  split; [exact (proj1 (Hcam eq_refl)) | exact Hlater].
Defined.

(** X13: the gray level of the seam lines is a valid colour component.
    For every line strength that is not [NaN], infinite ones included,
    the level lies between 1 and 128; for a strength between 0 and 127 it
    is 128 minus the strength. *)
Theorem seam_level_bounds (lineStrength : num) :
  lineStrength <> NaN ->
  exists level : R,
    seam lineStrength = Fin level
    /\ (1 <= level <= 128)%R
    /\ (forall l : R,
          lineStrength = Fin l -> (0 <= l <= 127)%R -> level = (128 - l)%R).
Proof.
  intros Hnan. unfold seam.
  destruct lineStrength as [l | | |]; [| now contradiction Hnan | |].
  - exists (128 - Rmax 0 (Rmin 127 l))%R.
    rewrite min_fin, max_fin, sub_fin. split; [reflexivity|].
    pose proof (clamp_bounds l 0 127) as Hb.
    split; [lra|]. intros l' E Hl. injection E as <-.
    rewrite clamp_inside by lra. reflexivity.
  - exists 1%R. split; [|split; [lra | discriminate]].
    unfold Math.min, Math.max, jlt. rewrite Rltb_true by lra.
    rewrite sub_fin. f_equal. ring.
  - exists 128%R. split; [|split; [lra | discriminate]].
    unfold Math.min, Math.max, jlt. rewrite sub_fin. f_equal. ring.
Qed.

Lemma seam_level_bounds_witness :
  Fin 110 <> NaN
  /\ exists level : R, seam 110 = Fin level /\ (1 <= level <= 128)%R.
Proof.
  assert (H : Fin 110 <> NaN) by discriminate.
  split; [exact H|].
  destruct (seam_level_bounds 110 H) as (level & E & Hb & _).
  exists level. split; [exact E | exact Hb].
Defined.

(** ** Styling the scene graph *)

Lemma Object3D_tree_ind (P : Object3D -> Prop) :
  (forall n m mat cs rs p s ch,
      Forall P ch -> P (mkObject n m mat cs rs p s ch)) ->
  forall o : Object3D, P o.
Proof.
  intros H. fix IH 1. intros [n m mat cs rs p s ch]. apply H.
  induction ch as [|c ch IHch]; constructor; [apply IH | exact IHch].
Qed.

Lemma styleMesh_fields (b : Texture) (o : Object3D) :
  name (styleMesh b o) = name o
  /\ isMesh (styleMesh b o) = isMesh o
  /\ position (styleMesh b o) = position o
  /\ scale (styleMesh b o) = scale o
  /\ children (styleMesh b o) = children o
  /\ (isMesh o = true ->
      castShadow (styleMesh b o) = true /\ receiveShadow (styleMesh b o) = true)
  /\ (isMesh o = false -> styleMesh b o = o).
Proof.
  unfold styleMesh. destruct (isMesh o) eqn:Hm; cbn [negb].
  - repeat match goal with
           | |- context [if ?c then _ else _] => destruct c
           end; cbn; repeat split; try reflexivity; try discriminate; exact Hm.
  - repeat split; try reflexivity; try discriminate. exact Hm.
Qed.

(** X14: [applyRealisticMaterials] visits every object of the scene
    graph and changes nothing but materials and shadow flags.  Object by
    object, in traversal order, the styled graph has the same names, mesh
    flags, positions, scales and numbers of children as the loaded one;
    every mesh casts and receives shadows afterwards; and an object that
    is not a mesh keeps its material and its shadow flags. *)
Theorem applyRealisticMaterials_nodes (brushed : Texture) (root : Object3D) :
  Forall2
    (fun o o' =>
       name o' = name o
       /\ isMesh o' = isMesh o
       /\ position o' = position o
       /\ scale o' = scale o
       /\ List.length (children o') = List.length (children o)
       /\ (isMesh o = true -> castShadow o' = true /\ receiveShadow o' = true)
       /\ (isMesh o = false ->
           material o' = material o
           /\ castShadow o' = castShadow o
           /\ receiveShadow o' = receiveShadow o))
    (nodes root) (nodes (applyRealisticMaterials brushed root)).
Proof.
  unfold applyRealisticMaterials.
  induction root as [n m mat cs rs p s ch IH] using Object3D_tree_ind.
  cbn [nodes traverse].
  set (o := mkObject n m mat cs rs p s ch).
  destruct (styleMesh_fields brushed o) as (Hn & Hm & Hp & Hs & _ & Hmesh & Hother).
  constructor.
  - cbn [name isMesh position scale children castShadow receiveShadow material].
    rewrite Hn, Hm, Hp, Hs, List.length_map.
    repeat split; try reflexivity.
    + now apply Hmesh.
    + now apply Hmesh.
    + now rewrite Hother.
    + now rewrite Hother.
    + now rewrite Hother.
  - clear o Hn Hm Hp Hs Hmesh Hother.
    induction IH as [|c l Hc _ IHl]; [constructor|].
    cbn [List.map List.flat_map]. apply Forall2_app; [exact Hc | exact IHl].
Qed.

(** Styling an object that has the own fields of an object styled with
    another texture, and other children, gives the own fields that
    styling the first object directly would give. *)
Lemma styleMesh_restyle (b1 b2 : Texture) (o : Object3D) (ch : list Object3D) :
  let o1 := styleMesh b1 o in
  let o2 := styleMesh b2 o in
  styleMesh b2
    (mkObject (name o1) (isMesh o1) (material o1) (castShadow o1)
       (receiveShadow o1) (position o1) (scale o1) ch)
  = mkObject (name o2) (isMesh o2) (material o2) (castShadow o2)
      (receiveShadow o2) (position o2) (scale o2) ch.
Proof.
  destruct o as [n m mat cs rs p s ch0]. cbn zeta.
  unfold styleMesh; cbn [name isMesh material castShadow receiveShadow position
                         scale children].
  destruct m; cbn [negb]; [|reflexivity].
  destruct (includes (toLowerCase n) "solpanel_steel_0") eqn:E1.
  { cbn. now rewrite E1. }
  destruct (includes (toLowerCase n) "cylinder001_steel_0"
            || includes (toLowerCase n) "cylinder002_steel_0")%bool eqn:E2.
  { cbn. now rewrite E1, E2. }
  destruct (includes (toLowerCase n) "picture") eqn:E3.
  { cbn. now rewrite E1, E2, E3. }
  cbn. now rewrite E1, E2, E3.
Qed.

Lemma map_absorbed {A : Type} (f g : A -> A) (l : list A) :
  Forall (fun a => g (f a) = g a) l ->
  List.map g (List.map f l) = List.map g l.
Proof.
  induction 1 as [|a l Ha _ IH]; [reflexivity|].
  cbn [List.map]. now rewrite Ha, IH.
Qed.

(** X15: styling does not accumulate.  Each call of
    [applyRealisticMaterials] makes its own seam texture; a call on a
    scene graph that an earlier call has styled gives exactly the scene
    graph that the later call alone would give on the loaded one: a
    picture mesh still gets the texture map of its loaded material, every
    name pattern selects the same material, and only the bump map of the
    panel steel is that of the later call. *)
Theorem applyRealisticMaterials_restyled
  (earlier later : Texture) (root : Object3D) :
  applyRealisticMaterials later (applyRealisticMaterials earlier root)
  = applyRealisticMaterials later root.
Proof.
  unfold applyRealisticMaterials.
  induction root as [n m mat cs rs p s ch IH] using Object3D_tree_ind.
  apply map_absorbed in IH.
  set (o := mkObject n m mat cs rs p s ch).
  change (traverse (styleMesh earlier) o)
    with (mkObject (name (styleMesh earlier o)) (isMesh (styleMesh earlier o))
            (material (styleMesh earlier o)) (castShadow (styleMesh earlier o))
            (receiveShadow (styleMesh earlier o)) (position (styleMesh earlier o))
            (scale (styleMesh earlier o))
            (List.map (traverse (styleMesh earlier)) ch)).
  cbn [traverse]. rewrite (styleMesh_restyle earlier later o).
  cbn [name isMesh material castShadow receiveShadow position scale].
  now rewrite IH.
Qed.

(** ** The rotation target *)

Lemma getObjectByName_spec (value : string) (o : Object3D) :
  match getObjectByName o value with
  | Some found => In found (nodes o) /\ name found = value
  | None => Forall (fun n => name n <> value) (nodes o)
  end.
Proof.
  induction o as [n m mat cs rs p s ch IH] using Object3D_tree_ind.
  cbn [getObjectByName nodes].
  destruct (String.eqb n value) eqn:E.
  - apply String.eqb_eq in E. split; [now left | exact E].
  - apply String.eqb_neq in E.
    assert (Hhead : name (mkObject n m mat cs rs p s ch) <> value) by exact E.
    revert Hhead. generalize (mkObject n m mat cs rs p s ch). intros o Hhead.
    induction IH as [|c l Hc _ IHl]; cbn [List.flat_map].
    + constructor; [exact Hhead | constructor].
    + destruct (getObjectByName c value) as [found|].
      * destruct Hc as [Hin Hname]. split; [|exact Hname].
        right. apply in_or_app. now left.
      * match type of IHl with
        | match ?e with _ => _ end => destruct e as [found|]
        end.
        -- destruct IHl as [[Ho | Hin] Hname].
           ++ split; [now left | exact Hname].
           ++ split; [|exact Hname]. right. apply in_or_app. now right.
        -- constructor; [exact Hhead|].
           apply Forall_app. split; [exact Hc|].
           now inversion IHl.
Qed.

Lemma styled_names (brushed : Texture) (root : Object3D) :
  List.map name (nodes (applyRealisticMaterials brushed root))
  = List.map name (nodes root).
Proof.
  unfold applyRealisticMaterials.
  induction root as [n m mat cs rs p s ch IH] using Object3D_tree_ind.
  cbn [nodes traverse List.map name].
  destruct (styleMesh_fields brushed (mkObject n m mat cs rs p s ch)) as (-> & _).
  cbn [name]. f_equal.
  induction IH as [|c l Hc _ IHl]; [reflexivity|].
  cbn [List.map List.flat_map]. now rewrite !List.map_app, Hc, IHl.
Qed.

Lemma named_in_list (value : string) (l : list Object3D) :
  Forall (fun n => name n <> value) l <-> ~ In value (List.map name l).
Proof.
  rewrite Forall_forall, in_map_iff. split.
  - intros H (o & Ho & Hin). exact (H o Hin Ho).
  - intros H o Hin Ho. apply H. now exists o.
Qed.

(** X16: the object that the mount effect rotates is found by name or
    is the root.  It is always an object of the scene graph; it is
    named "solpanel" whenever the scene graph has an object of that name,
    and it is the root itself when there is none; and styling the scene
    graph first, as the mount effect does, does not change its name. *)
Theorem rotationTarget_spec (brushed : Texture) (root : Object3D) :
  In (rotationTarget root) (nodes root)
  /\ (In "solpanel"%string (List.map name (nodes root)) ->
      name (rotationTarget root) = "solpanel"%string)
  /\ (~ In "solpanel"%string (List.map name (nodes root)) ->
      rotationTarget root = root)
  /\ name (rotationTarget (applyRealisticMaterials brushed root))
     = name (rotationTarget root).
Proof.
  assert (Hroot : forall r : Object3D, In r (nodes r)).
  { intros [n m mat cs rs p s ch]. now left. }
  assert (Hcases : forall r : Object3D,
             (name (rotationTarget r) = "solpanel"%string
              /\ In "solpanel"%string (List.map name (nodes r))
              /\ In (rotationTarget r) (nodes r))
             \/ (rotationTarget r = r
                 /\ ~ In "solpanel"%string (List.map name (nodes r)))).
  { intros r. unfold rotationTarget.
    pose proof (getObjectByName_spec "solpanel" r) as H.
    destruct (getObjectByName r "solpanel") as [found|].
    - left. destruct H as [Hin Hname]. split; [exact Hname|].
      split; [|exact Hin]. rewrite <- Hname. now apply in_map.
    - right. split; [reflexivity|]. now apply named_in_list. }
  destruct (Hcases root) as [(Hname & Hin & Hnode) | (Heq & Hnone)].
  - split; [exact Hnode|]. split; [intros _; exact Hname|].
    split; [intros Hn; now contradiction Hn|].
    destruct (Hcases (applyRealisticMaterials brushed root))
      as [(Hname' & _) | (_ & Hnone')].
    + now rewrite Hname, Hname'.
    + rewrite styled_names in Hnone'. now contradiction Hnone'.
  - split; [rewrite Heq; apply Hroot|].
    split; [intros Hin; now contradiction Hnone|].
    split; [intros _; exact Heq|].
    destruct (Hcases (applyRealisticMaterials brushed root))
      as [(_ & Hin' & _) | (Heq' & _)].
    + rewrite styled_names in Hin'. now contradiction Hnone.
    + rewrite Heq', Heq. unfold applyRealisticMaterials.
      destruct root as [n m mat cs rs p s ch]. cbn [traverse name].
      now destruct (styleMesh_fields brushed (mkObject n m mat cs rs p s ch))
        as (-> & _).
Qed.

Lemma rotationTarget_spec_witness :
  let root :=
    mkObject "Scene" false (material sample_object) false false
      (Vector3.mk 0 0 0) (Vector3.mk 1 1 1)
      (mkObject "solpanel" true (material sample_object) false false
         (Vector3.mk 0 0 0) (Vector3.mk 1 1 1) nil :: nil) in
  In "solpanel"%string (List.map name (nodes root))
  /\ name (rotationTarget root) = "solpanel"%string
  /\ ~ In "solpanel"%string (List.map name (nodes sample_object))
  /\ rotationTarget sample_object = sample_object.
Proof.
  cbn zeta.
  set (root := mkObject "Scene" false (material sample_object) false false
                 (Vector3.mk 0 0 0) (Vector3.mk 1 1 1)
                 (mkObject "solpanel" true (material sample_object) false false
                    (Vector3.mk 0 0 0) (Vector3.mk 1 1 1) nil :: nil)).
  assert (Hin : In "solpanel"%string (List.map name (nodes root)))
    by (right; left; reflexivity).
  assert (Hnone : ~ In "solpanel"%string (List.map name (nodes sample_object))).
  { intros [H | []]. discriminate H. }
  split; [exact Hin|].
  split; [exact (proj1 (proj2 (rotationTarget_spec 0%nat root)) Hin)|].
  split; [exact Hnone|].
  exact (proj1 (proj2 (proj2 (rotationTarget_spec 0%nat sample_object))) Hnone).
Defined.

(** ** Matching mesh names *)

Lemma toLowerCase_app (s t : string) :
  toLowerCase (s ++ t) = (toLowerCase s ++ toLowerCase t)%string.
Proof. induction s as [|c s IH]; [reflexivity|]. cbn. now rewrite IH. Qed.

Lemma prefix_app (s t : string) : String.prefix s (s ++ t) = true.
Proof.
  induction s as [|c s IH]; [now destruct t|].
  cbn. destruct (Ascii.ascii_dec c c) as [_ | Hne]; [exact IH | now contradiction Hne].
Qed.

Lemma includes_app (pre sub post : string) :
  includes (pre ++ sub ++ post) sub = true.
Proof.
  induction pre as [|c pre IH].
  - cbn [String.append]. destruct (sub ++ post)%string eqn:E; cbn [includes].
    + rewrite <- E, prefix_app. reflexivity.
    + rewrite <- E, prefix_app. reflexivity.
  - cbn [String.append includes]. rewrite IH. apply orb_true_r.
Qed.

(** X17: mesh names are matched as substrings without regard to letter
    case, and the panel-steel pattern is tried first.  A mesh whose name
    contains, in any mix of upper and lower case, the text
    solpanel_steel_0 gets the brushed panel-steel material, with the seam
    texture as bump map and no texture map, whatever else its name
    contains. *)
Theorem panel_steel_by_name
  (brushed : Texture) (o : Object3D) (pre mid post : string) :
  isMesh o = true ->
  name o = (pre ++ mid ++ post)%string ->
  toLowerCase mid = "solpanel_steel_0"%string ->
  material (styleMesh brushed o)
  = mkMaterial MeshPhysicalMaterial (Some "#c9cdd3"%string)
      (Some (Fin (95 / 100))) (Some (Fin (35 / 100))) None
      (Some brushed) (Some (Fin (16 / 10)))
      (Some (Fin (115 / 100))) (Some (Fin (8 / 10))) (Some (Fin (1 / 10))).
Proof.
  intros Hm Hn Hmid. unfold styleMesh. rewrite Hm, Hn. cbn [negb].
  rewrite !toLowerCase_app, Hmid, includes_app. reflexivity.
Qed.

Lemma panel_steel_by_name_witness :
  let o :=
    mkObject "Picture_SolPanel_Steel_0.001" true (material sample_object)
      false false (Vector3.mk 0 0 0) (Vector3.mk 1 1 1) nil in
  isMesh o = true
  /\ name o = ("Picture_" ++ "SolPanel_Steel_0" ++ ".001")%string
  /\ toLowerCase "SolPanel_Steel_0" = "solpanel_steel_0"%string
  /\ kind (material (styleMesh 7%nat o)) = MeshPhysicalMaterial
  /\ bumpMap (material (styleMesh 7%nat o)) = Some 7%nat.
Proof.
  intros o.
  assert (Hm : isMesh o = true) by reflexivity.
  assert (Hn : name o = ("Picture_" ++ "SolPanel_Steel_0" ++ ".001")%string)
    by reflexivity.
  assert (Hl : toLowerCase "SolPanel_Steel_0" = "solpanel_steel_0"%string)
    by reflexivity.
  repeat (split; [assumption|]).
  rewrite (panel_steel_by_name 7%nat o "Picture_" "SolPanel_Steel_0" ".001"
             Hm Hn Hl).
  split; reflexivity.
Defined.

(** ** The pace and the extremes of the demo oscillation *)

Lemma abs_sin_le (x : R) : (Rabs (sin x) <= Rabs x)%R.
Proof.
  assert (Hpos : forall y : R, (0 <= y)%R -> (Rabs (sin y) <= y)%R).
  { intros y [Hy | <-].
    - apply Rabs_le. split.
      + destruct (Rle_dec y 1) as [H1 | H1].
        * assert (0 <= sin y)%R by (apply sin_ge_0; pose proof PI_lower; lra). lra.
        * pose proof (SIN_bound y). lra.
      + left. now apply sin_lt_x.
    - rewrite sin_0, Rabs_R0. lra. }
  destruct (Rle_dec 0 x) as [H | H].
  - rewrite (Rabs_right x) by lra. now apply Hpos.
  - rewrite <- (Rabs_Ropp (sin x)), <- sin_neg, (Rabs_left x) by lra.
    apply Hpos. lra.
Qed.

Lemma sin_lipschitz (a b : R) : (Rabs (sin a - sin b) <= Rabs (a - b))%R.
Proof.
  rewrite form4.
  rewrite !Rabs_mult, (Rabs_right 2) by lra.
  pose proof (COS_bound ((a + b) / 2)) as [Hc1 Hc2].
  assert (Hc : (Rabs (cos ((a + b) / 2)) <= 1)%R) by (apply Rabs_le; lra).
  pose proof (abs_sin_le ((a - b) / 2)) as Hs.
  assert (Hhalf : Rabs ((a - b) / 2) = (Rabs (a - b) / 2)%R).
  { unfold Rdiv. rewrite Rabs_mult, (Rabs_right (/ 2)) by lra. reflexivity. }
  rewrite Hhalf in Hs.
  pose proof (Rabs_pos (sin ((a - b) / 2))). pose proof (Rabs_pos (cos ((a + b) / 2))).
  nra.
Qed.

(** X18: the demo oscillation moves at a bounded pace.  Between any two
    elapsed times the demo pitch changes by at most
    (47/2) deg * (2 PI / 8) per second and the demo yaw by at most
    30 deg * 0.35 * (2 PI / 8) per second. *)
Theorem spin_pace (t t' : R) :
  exists p p' y y' : R,
    spinPitch (Fin t) = Fin p /\ spinPitch (Fin t') = Fin p'
    /\ spinYaw (Fin t) = Fin y /\ spinYaw (Fin t') = Fin y'
    /\ (Rabs (p - p') <= 47 / 2 * (PI / 180) * (PI * 2 / 8) * Rabs (t - t'))%R
    /\ (Rabs (y - y')
        <= 30 * (PI / 180) * (35 / 100 * (PI * 2 / 8)) * Rabs (t - t'))%R.
Proof.
  do 4 eexists. rewrite !spinPitch_fin, !spinYaw_fin.
  repeat (split; [reflexivity|]).
  pose proof PI_RGT_0 as Hpi.
  pose proof (sin_lipschitz (t * (PI * 2 / 8)) (t' * (PI * 2 / 8))) as Hp.
  pose proof (sin_lipschitz (t * (PI * 2 / 8) * (35 / 100))
                (t' * (PI * 2 / 8) * (35 / 100))) as Hy.
  replace (t * (PI * 2 / 8) - t' * (PI * 2 / 8))%R
    with ((t - t') * (PI * 2 / 8))%R in Hp by ring.
  replace (t * (PI * 2 / 8) * (35 / 100) - t' * (PI * 2 / 8) * (35 / 100))%R
    with ((t - t') * (35 / 100 * (PI * 2 / 8)))%R in Hy by ring.
  rewrite Rabs_mult, (Rabs_right (PI * 2 / 8)) in Hp by lra.
  rewrite Rabs_mult, (Rabs_right (35 / 100 * (PI * 2 / 8))) in Hy by lra.
  split.
  - replace ((8 + (55 - 8) * ((sin (t * (PI * 2 / 8)) + 1) / 2)) * (PI / 180)
             - (8 + (55 - 8) * ((sin (t' * (PI * 2 / 8)) + 1) / 2)) * (PI / 180))%R
      with (47 / 2 * (PI / 180)
            * (sin (t * (PI * 2 / 8)) - sin (t' * (PI * 2 / 8))))%R by field.
    rewrite Rabs_mult, (Rabs_right (47 / 2 * (PI / 180))) by lra.
    pose proof (Rabs_pos (t - t')). nra.
  - replace (sin (t * (PI * 2 / 8) * (35 / 100)) * 30 * (PI / 180)
             - sin (t' * (PI * 2 / 8) * (35 / 100)) * 30 * (PI / 180))%R
      with (30 * (PI / 180)
            * (sin (t * (PI * 2 / 8) * (35 / 100))
               - sin (t' * (PI * 2 / 8) * (35 / 100))))%R by ring.
    rewrite Rabs_mult, (Rabs_right (30 * (PI / 180))) by lra.
    pose proof (Rabs_pos (t - t')). nra.
Qed.

(** X19: the demo oscillation reaches the ends of its ranges.  In every
    period the pitch is exactly 55 degrees 2 s after the start of the
    period and exactly 8 degrees 6 s after it, and the yaw is exactly
    30 degrees at 40/7 s and -30 degrees at 120/7 s of its own period of
    160/7 s. *)
Theorem spin_extremes (k : nat) :
  spinPitch (Fin (2 + 8 * INR k)) = MathUtils.degToRad 55
  /\ spinPitch (Fin (6 + 8 * INR k)) = MathUtils.degToRad 8
  /\ spinYaw (Fin (40 / 7 + 160 / 7 * INR k)) = MathUtils.degToRad 30
  /\ spinYaw (Fin (120 / 7 + 160 / 7 * INR k)) = MathUtils.degToRad (-30).
Proof.
  rewrite !spinPitch_fin, !spinYaw_fin, !degToRad_fin.
  assert (E1 : sin ((2 + 8 * INR k) * (PI * 2 / 8)) = 1%R).
  { rewrite <- sin_PI2. apply (sin_shift _ _ k). field. }
  assert (E2 : sin ((6 + 8 * INR k) * (PI * 2 / 8)) = (-1)%R).
  { replace (-1)%R with (- sin (PI / 2))%R by (rewrite sin_PI2; ring).
    rewrite <- neg_sin. apply (sin_shift _ _ k). field. }
  assert (E3 : sin ((40 / 7 + 160 / 7 * INR k) * (PI * 2 / 8) * (35 / 100)) = 1%R).
  { rewrite <- sin_PI2. apply (sin_shift _ _ k). field. }
  assert (E4 : sin ((120 / 7 + 160 / 7 * INR k) * (PI * 2 / 8) * (35 / 100))
               = (-1)%R).
  { replace (-1)%R with (- sin (PI / 2))%R by (rewrite sin_PI2; ring).
    rewrite <- neg_sin. apply (sin_shift _ _ k). field. }
  rewrite E1, E2, E3, E4. repeat split; f_equal; field.
Qed.

(** ** Switching modes and frames before the mount *)

(** X20: switching from the demo to tracking does not snap.  With a
    unit rest pose and a finite stored direction, the tracking frame that
    follows a demo frame ends within 0.02 rad of the orientation that the
    demo frame left, whatever the elapsed times are. *)
Theorem no_snap_after_demo
  (current base : Quaternion.t) (x y z t : R) (t' : num) :
  Quaternion.length base = Fin 1 ->
  let demo := useFrame spin (mkRefs (Some current) base (Vector3.mk x y z)) (Fin t) in
  let tracked := useFrame sun demo t' in
  exists (q1 q2 : Quaternion.t) (m : R),
    panelRef demo = Some q1
    /\ panelRef tracked = Some q2
    /\ Quaternion.angleTo q1 q2 = Fin m
    /\ (0 <= m <= 2 / 100)%R.
Proof.
  intros Hb. cbn zeta.
  pose proof (spin_frame_unit base t Hb) as H1.
  pose proof (tracking_target_unit base x y z Hb) as H2.
  unfold useFrame at 2 3; cbn [panelRef baseQuat sunDir].
  unfold useFrame; cbn [panelRef baseQuat sunDir].
  set (q1 := Quaternion.multiply base
               (Quaternion.setFromEuler
                  (Euler.mk (spinPitch (Fin t)) (spinYaw (Fin t)) 0))) in *.
  set (target := Quaternion.multiply base
                   (Quaternion.setFromEuler
                      (Euler.mk (trackPitch (Vector3.mk x y z))
                         (trackYaw (Vector3.mk x y z)) 0))) in *.
  destruct (unit_length_finite _ H1) as (p & Ep & Hp).
  destruct (unit_length_finite _ H2) as (q & Eq & Hq).
  rewrite Ep, Eq. change slewStep with (Fin (2 / 100)).
  assert (Hstep : (3 / 100000000 <= 2 / 100)%R) by lra.
  pose proof (acos_bound (Rabs (dot4 p q))) as [Hth _].
  destruct (rotateTowards_unit_step p q (2 / 100) Hp Hq Hstep)
    as [[_ E] | [[Hnear E] | [_ (r & E & Hr & _ & Hmoved)]]]; rewrite E.
  - exists (quat p), (quat p), 0%R. rewrite (angle_zero_self p Hp).
    repeat split; try reflexivity; lra.
  - exists (quat p), (quat q), (2 * acos (Rabs (dot4 p q)))%R.
    rewrite (angleTo_quat p q Hp Hq). repeat split; try reflexivity; lra.
  - exists (quat p), (quat r), (2 / 100)%R.
    rewrite (angleTo_quat p r Hp Hr), Hmoved. repeat split; try reflexivity; lra.
Qed.

Lemma no_snap_after_demo_witness :
  Quaternion.length Quaternion.identity = Fin 1
  /\ exists (q1 q2 : Quaternion.t) (m : R),
       panelRef
         (useFrame spin
            (mkRefs (Some Quaternion.identity) Quaternion.identity
               (Vector3.mk 0 1 0)) (Fin 3))
       = Some q1
       /\ panelRef
            (useFrame sun
               (useFrame spin
                  (mkRefs (Some Quaternion.identity) Quaternion.identity
                     (Vector3.mk 0 1 0)) (Fin 3)) 4)
          = Some q2
       /\ Quaternion.angleTo q1 q2 = Fin m
       /\ (0 <= m <= 2 / 100)%R.
Proof.
  split; [exact identity_unit|].
  exact (no_snap_after_demo Quaternion.identity Quaternion.identity 0 1 0 3 4
           identity_unit).
Defined.

(** X21: nothing turns before the mount.  While the panel reference is
    unset, frame callbacks in either mode and clicks on the mode button
    leave the refs as they are: after any sequence of events the panel
    reference is still unset and the rest pose is the same; only the sun
    updates are stored. *)
Theorem unmounted_session_stays_unmounted (s : Session) (events : list Event) :
  panelRef (refsOf s) = None ->
  panelRef (refsOf (fold_left handle events s)) = None
  /\ baseQuat (refsOf (fold_left handle events s)) = baseQuat (refsOf s)
  /\ (Forall (fun e => forall pos, e <> SunTick pos) events ->
      refsOf (fold_left handle events s) = refsOf s).
Proof.
  revert s. induction events as [|e events IH]; intros s Hs.
  - now repeat split.
  - cbn [fold_left].
    assert (Hstep : panelRef (refsOf (handle s e)) = None
                    /\ baseQuat (refsOf (handle s e)) = baseQuat (refsOf s)
                    /\ ((forall pos, e <> SunTick pos) ->
                        refsOf (handle s e) = refsOf s)).
    { destruct e as [elapsed | pos |]; cbn [handle refsOf].
      - unfold useFrame. rewrite Hs. now repeat split.
      - repeat split; [exact Hs|]. intros H. now contradiction (H pos).
      - now repeat split. }
    destruct Hstep as (Hp & Hb & Hsame).
    destruct (IH _ Hp) as (Hp' & Hb' & Hsame').
    split; [exact Hp'|]. split; [now rewrite Hb'|].
    intros Hall. inversion Hall as [|e' l He Hl]; subst.
    now rewrite (Hsame' Hl), (Hsame He).
Qed.

Lemma unmounted_session_stays_unmounted_witness :
  let s := mkSession spin initial in
  let events := FrameTick 1 :: ModeClick :: FrameTick 2 :: nil in
  panelRef (refsOf s) = None
  /\ Forall (fun e => forall pos, e <> SunTick pos) events
  /\ refsOf (fold_left handle events s) = refsOf s.
Proof.
  cbn zeta.
  assert (Hn : panelRef (refsOf (mkSession spin initial)) = None) by reflexivity.
  assert (He : Forall (fun e => forall pos, e <> SunTick pos)
                 (FrameTick 1 :: ModeClick :: FrameTick 2 :: nil)).
  { repeat constructor; intros pos; discriminate. }
  split; [exact Hn|]. split; [exact He|].
  exact (proj2 (proj2 (unmounted_session_stays_unmounted
                         (mkSession spin initial) _ Hn)) He).
Defined.
